(** * go-migrate: the migration runner

    A shallow embedding of [migrations.go] and [simple.go] of
    tcfw/go-migrate (the [database/sql] flavour; the two [pgx] flavours
    are line-for-line the same runner over another driver).

    - Go strings are byte strings: [string] with [String.length] and
      [substring] counting bytes.
    - [int] and [int64] are [Z]; the only place where the 64-bit
      wrap-around can be reached, the loop bound of [migrateDownN], writes
      it out with [wrap64].
    - [error] is [option string]: [None] is [nil], [Some s] an error whose
      [Error()] text is [s].
    - The database is an explicit [World]: the committed store, the working
      copy of the open transaction, the history of driver calls, and the
      progress sink.  Driver failures come from an [Oracle] that answers
      every call from the history so far.
    - A run-time panic (index out of range) is the [Panic] outcome. *)

From Stdlib Require Import ZArith String Ascii DecimalString DecimalPos DecimalZ.
From stdpp Require Import gmap strings list sorting.

Local Open Scope Z_scope.

(** ** time.Time *)

(** An instant: seconds since the Unix epoch and the nanoseconds within
    that second, which is how [time.Time] stores it. *)
Record Time := mkTime { sec : Z; nsec : Z }.

(** [t.Unix()] *)
Definition Unix (t : Time) : Z := sec t.

(** [t.Before(u)] *)
Definition Before (t u : Time) : bool :=
  (sec t <? sec u) || ((sec t =? sec u) && (nsec t <? nsec u)).

(** ** fmt *)

Abbreviation error := (option string).

(** [%d] of an integer: decimal digits, with a leading minus sign. *)
Definition itoa (z : Z) : string := NilZero.string_of_int (Z.to_int z).

Inductive Arg := AInt (z : Z) | AStr (s : string).

Definition verb (a : Arg) : string :=
  match a with
  | AInt z => itoa z
  | AStr s => s
  end.

(** [fmt.Sprintf] for the verbs the runner uses: [%d] on integers and [%s]
    on strings and errors. *)
Fixpoint Sprintf (format : string) (args : list Arg) : string :=
  match format with
  | EmptyString => EmptyString
  | String "%" (String c rest) =>
      match args with
      | a :: args' => verb a +:+ Sprintf rest args'
      | [] => "%!" +:+ String c "(MISSING)" +:+ Sprintf rest []
      end
  | String c rest => String c (Sprintf rest args)
  end.

(** ** The driver: calls, history, oracle *)

Inductive Call :=
| CallCreateTable              (* CREATE TABLE IF NOT EXISTS migrations ... *)
| CallQuery                    (* SELECT * FROM migrations *)
| CallNext                     (* rows.Next() *)
| CallScan                     (* rows.Scan(&name) *)
| CallClose                    (* rows.Close() *)
| CallBegin                    (* db.Begin() *)
| CallUp (name : string)       (* sorted[i].Up(tx) *)
| CallDown (name : string)     (* sorted[i].Down(tx) *)
| CallInsert (name : string)   (* INSERT INTO migrations VALUES ($1) *)
| CallDelete (name : string)   (* DELETE FROM migrations WHERE migration = $1 *)
| CallCommit                   (* tx.Commit() *)
| CallRollback.                (* tx.Rollback() *)

(** The history holds the calls made so far with their results, newest
    first. *)
Abbreviation History := (list (Call * error)).

(** What the driver answers to a call, given the history: [None] lets the
    call through, [Some e] makes it fail with [e]. *)
Abbreviation Oracle := (History -> Call -> error).

(** ** The progress sink *)

(** One [logrus] call: the fields attached with [WithField], the format
    string and its arguments. *)
Record Entry := mkEntry {
  fields : list (string * Z);
  format : string;
  args : list Arg
}.

(** The line the sink prints. *)
Definition message (e : Entry) : string := Sprintf (format e) (args e).

(** [t] is not after [u]. *)
Definition time_le (t u : Time) : Prop :=
  sec t < sec u \/ (sec t = sec u /\ nsec t <= nsec u).

(** Every [Next] and [Scan] issued after the history [h0] goes through:
    the read of the tracking table sees every row. *)
Definition readsClean (env : Oracle) (h0 : History) : Prop :=
  forall h, h0 `suffix_of` h -> env h CallNext = None /\ env h CallScan = None.

(** The events of reading the tracking table. *)
Definition readEvent (ev : Call * error) : Prop :=
  ev.1 = CallQuery \/ ev.1 = CallNext \/ ev.1 = CallScan \/ ev.1 = CallClose.

(** The calls that apply something: an increment or a tracking-row write. *)
Definition applies (c : Call) : Prop :=
  match c with
  | CallUp _ | CallDown _ | CallInsert _ | CallDelete _ => True
  | _ => False
  end.

(** [int] arithmetic that can leave the 64-bit range. *)
Definition wrap64 (z : Z) : Z := (z + 2 ^ 63) mod 2 ^ 64 - 2 ^ 63.

Section Model.

Context {Schema : Type}.

(** ** Migrations *)

(** [type MigrationIncrement func(tx) error].  An increment is
    handed the open transaction; it is modelled by what it does to the
    user schema inside that transaction, and the error it returns.  The
    tracking table is written by the runner. *)
Abbreviation MigrationIncrement := (Schema -> Schema * error).

(** [type Migration interface { Up; Down; Date; Name }]: a value of the
    interface is the record of its four methods. *)
Record Migration := mkMigration {
  Up : MigrationIncrement;
  Down : MigrationIncrement;
  Date : Time;
  Name : string
}.

(** [type SimpleMigration struct]: [up] and [down] may be [nil]. *)
Record SimpleMigration := mkSimple {
  name : string;
  date : Time;
  up : option MigrationIncrement;
  down : option MigrationIncrement
}.

Definition NewSimpleMigration (name : string) (date : Time)
    (up down : option MigrationIncrement) : SimpleMigration :=
  {| date := date; name := name; up := up; down := down |}.

(** [SimpleMigration.Up]: an unset increment succeeds and does nothing. *)
Definition SimpleUp (tm : SimpleMigration) : MigrationIncrement :=
  fun tx =>
    match up tm with
    | Some f => f tx
    | None => (tx, None)
    end.

Definition SimpleDown (tm : SimpleMigration) : MigrationIncrement :=
  fun tx =>
    match down tm with
    | Some f => f tx
    | None => (tx, None)
    end.

(** A pointer to a [SimpleMigration] implements [Migration]. *)
Definition simple (tm : SimpleMigration) : Migration :=
  {| Up := SimpleUp tm; Down := SimpleDown tm; Date := date tm; Name := name tm |}.

(** [type MigrationList []Migration], by its contents. *)
Abbreviation MigrationList := (list Migration).

Definition Len (ml : MigrationList) : Z := Z.of_nat (length ml).

(** [ml[i].Date().Before(ml[j].Date())]; [None] when an index is out of
    range. *)
Definition Less (ml : MigrationList) (i j : nat) : option bool :=
  a ← ml !! i; b ← ml !! j; Some (Before (Date a) (Date b)).

(** [ml[i], ml[j] = ml[j], ml[i]] *)
Definition Swap (ml : MigrationList) (i j : nat) : option MigrationList :=
  a ← ml !! i; b ← ml !! j; Some (<[i := b]> (<[j := a]> ml)).

(** [dbName] converts the migration to the name stored in the ran
    migrations table. *)
Definition dbName (mig : Migration) : string :=
  let migStr := Sprintf "%d_%s" [AInt (Unix (Date mig)); AStr (Name mig)] in
  let n := String.length migStr in
  let n := if (500 <? n)%nat then 500%nat else n in
  substring 0 n migStr.

(** ** The database *)

(** The user schema and the tracking table [migrations]: [None] while the
    table does not exist, else its rows in insertion order.  The table has
    one text column and no uniqueness constraint, so a row is a string and
    the same string may occur twice. *)
Record Store := mkStore {
  schema : Schema;
  tracking : option (list string)
}.

Record World := mkWorld {
  committed : Store;          (* what is durably in the database *)
  tx : option Store;          (* the working copy of the open transaction *)
  history : History;          (* driver calls so far, newest first *)
  sink : list Entry           (* progress notifications, newest first *)
}.

Definition with_committed (s : Store) (w : World) : World :=
  {| committed := s; tx := tx w; history := history w; sink := sink w |}.
Definition with_tx (t : option Store) (w : World) : World :=
  {| committed := committed w; tx := t; history := history w; sink := sink w |}.
Definition with_history (h : History) (w : World) : World :=
  {| committed := committed w; tx := tx w; history := h; sink := sink w |}.
Definition with_sink (l : list Entry) (w : World) : World :=
  {| committed := committed w; tx := tx w; history := history w; sink := l |}.

(** A computation either returns in a new world or panics. *)
Inductive Res (A : Type) :=
| Done (a : A) (w : World)
| Panic (msg : string) (w : World).
Arguments Done {A} a w.
Arguments Panic {A} msg w.

Definition M (A : Type) := World -> Res A.

#[export] Instance M_ret : MRet M := fun A a w => Done a w.
#[export] Instance M_bind : MBind M := fun A B f m w =>
  match m w with
  | Done a w' => f a w'
  | Panic msg w' => Panic msg w'
  end.

Definition panic {A} (msg : string) : M A := fun w => Panic msg w.

Variable env : Oracle.

Definition ErrTxDone : string :=
  "sql: transaction has already been committed or rolled back".
Definition ErrNoTable : string := "relation migrations does not exist".

(** The result of a driver call: the oracle's failure if it injects one,
    else what the state of the database says. *)
Definition outcome (w : World) (c : Call) (state : error) : error :=
  match env (history w) c with
  | Some e => Some e
  | None => state
  end.

Definition note (c : Call) (e : error) (w : World) : World :=
  with_history ((c, e) :: history w) w.

(** [db.Exec] of the CREATE TABLE IF NOT EXISTS statement, outside any
    transaction. *)
Definition db_Exec_create : M error := fun w =>
  let e := outcome w CallCreateTable None in
  let w1 := note CallCreateTable e w in
  match e with
  | Some _ => Done e w1
  | None =>
      let s := committed w in
      Done None (with_committed
        {| schema := schema s; tracking := Some (default [] (tracking s)) |} w1)
  end.

(** [db.Query] of the SELECT: the cursor over the committed rows, or an
    error. *)
Definition db_Query : M (list string * error) := fun w =>
  let e := outcome w CallQuery
             (match tracking (committed w) with
              | Some _ => None
              | None => Some ErrNoTable
              end) in
  let w1 := note CallQuery e w in
  match e, tracking (committed w) with
  | None, Some rows => Done (rows, None) w1
  | _, _ => Done ([], e) w1
  end.

(** [rows.Next()]: true when a row is ready; false at the end of the rows
    and when the cursor fails (the failure is then held by [rows.Err()],
    which the runner does not read). *)
Definition rows_Next (cursor : list string) : M bool := fun w =>
  let e := outcome w CallNext None in
  Done (match e, cursor with None, _ :: _ => true | _, _ => false end)
       (note CallNext e w).

(** [rows.Scan(&name)] on the row [r]: the value left in the fresh
    variable [name], and the error. *)
Definition rows_Scan (r : string) : M (string * error) := fun w =>
  let e := outcome w CallScan None in
  Done (match e with None => r | Some _ => EmptyString end, e)
       (note CallScan e w).

Definition rows_Close : M error := fun w =>
  let e := outcome w CallClose None in Done e (note CallClose e w).

(** [db.Begin()]: the transaction starts from the committed store. *)
Definition db_Begin : M error := fun w =>
  let e := outcome w CallBegin None in
  let w1 := note CallBegin e w in
  match e with
  | Some _ => Done e w1
  | None => Done None (with_tx (Some (committed w)) w1)
  end.

(** An increment called on the open transaction. *)
Definition tx_increment (c : Call) (inc : MigrationIncrement) : M error := fun w =>
  match tx w with
  | None => Done (Some ErrTxDone) (note c (Some ErrTxDone) w)
  | Some s =>
      let '(sch, e) := inc (schema s) in
      Done e (with_tx (Some {| schema := sch; tracking := tracking s |}) (note c e w))
  end.

(** [tx.Exec] of a statement that rewrites the rows of the tracking table. *)
Definition tx_Exec (c : Call) (f : list string -> list string) : M error := fun w =>
  let e := outcome w c
             (match tx w with
              | None => Some ErrTxDone
              | Some s => match tracking s with
                          | Some _ => None
                          | None => Some ErrNoTable
                          end
              end) in
  let w1 := note c e w in
  match e, tx w with
  | None, Some s =>
      Done None (with_tx (Some {| schema := schema s; tracking := f <$> tracking s |}) w1)
  | _, _ => Done e w1
  end.

(** INSERT INTO migrations VALUES ($1) *)
Definition tx_Exec_insert (name : string) : M error :=
  tx_Exec (CallInsert name) (fun rows => rows ++ [name]).

(** DELETE FROM migrations WHERE migration = $1 *)
Definition tx_Exec_delete (name : string) : M error :=
  tx_Exec (CallDelete name) (fun rows => filter (fun r => r <> name) rows).

(** [tx.Commit()]: on success the working copy becomes the committed
    store; on failure nothing is persisted.  The transaction is over
    either way. *)
Definition tx_Commit : M error := fun w =>
  let e := outcome w CallCommit
             (match tx w with Some _ => None | None => Some ErrTxDone end) in
  let w1 := with_tx None (note CallCommit e w) in
  match e, tx w with
  | None, Some s => Done None (with_committed s w1)
  | _, _ => Done e w1
  end.

(** [tx.Rollback()]: the working copy is dropped. *)
Definition tx_Rollback : M error := fun w =>
  let e := outcome w CallRollback
             (match tx w with Some _ => None | None => Some ErrTxDone end) in
  Done e (with_tx None (note CallRollback e w)).

(** [log.Infof(format, args...)], after [WithField]s if any. *)
Definition log_Infof (fs : list (string * Z)) (format : string) (args : list Arg)
    : M unit := fun w =>
  Done tt (with_sink ({| fields := fs; format := format; args := args |} :: sink w) w).

(** ** sort.Sort on short slices *)

(** [for j := i; j > 0 && data.Less(j, j-1); j-- { data.Swap(j, j-1) }] *)
Fixpoint sift (ml : MigrationList) (j : nat) : option MigrationList :=
  match j with
  | O => Some ml
  | S j' =>
      lt ← Less ml j j';
      if lt : bool then ml' ← Swap ml j j'; sift ml' j' else Some ml
  end.

(** [for i := 1; i < n; i++], with [todo] iterations left. *)
Fixpoint passes (ml : MigrationList) (i todo : nat) : option MigrationList :=
  match todo with
  | O => Some ml
  | S todo' => ml' ← sift ml i; passes ml' (S i) todo'
  end.

(** The library's [insertionSort(data, 0, n)], which is all [sort.Sort]
    does on a slice of at most 12 elements; [None] would be a panic in
    [Less] or [Swap]. *)
Definition insertionSort (ml : MigrationList) : option MigrationList :=
  passes ml 1 (length ml - 1).

Definition sortShort (ml : MigrationList) : MigrationList :=
  default ml (insertionSort ml).

(** What [sift] does, read on the part of the slice it moves through:
    [rpre] is the prefix before the element [x], nearest element first;
    [x] moves past every element it is before. *)
Fixpoint insr (x : Migration) (rpre : MigrationList) : MigrationList :=
  match rpre with
  | [] => [x]
  | y :: r =>
      if Before (Date x) (Date y) then y :: insr x r else x :: y :: r
  end.

(** Read from the element nearest to the end: no element is before one
    that follows it. *)
Definition descending (r : MigrationList) : Prop :=
  StronglySorted (fun a b => time_le (Date b) (Date a)) r.

(** ** migrations.go *)

(** [checkMigrationTable] creates the migrations table if it doesn't
    exist. *)
Definition checkMigrationTable : M error := db_Exec_create.

(** The loop over [hasRunRes] in [needsToRun].  The result of [Scan] is
    dropped and [hasRunRes.Err()] is not consulted, as in the source. *)
Fixpoint scanRows (cursor : list string) (hasRun : gmap string bool)
    {struct cursor} : M (gmap string bool) :=
  more ← rows_Next cursor;
  match more, cursor with
  | true, r :: rest =>
      '(name, _) ← rows_Scan r;
      scanRows rest (<[name := true]> hasRun)
  | _, _ => mret hasRun
  end.

(** The loop over [migs] in [needsToRun]: [toRun = append(toRun, migration)]
    for every migration whose name is not a key of [hasRun]. *)
Definition rangeMigs (hasRun : gmap string bool) (migs : MigrationList)
    : MigrationList :=
  foldl (fun toRun migration =>
           let name := dbName migration in
           match hasRun !! name with
           | Some _ => toRun
           | None => toRun ++ [migration]
           end) [] migs.

(** [needsToRun] lists which of the given migrations needs to be run. *)
Definition needsToRun (migs : MigrationList) : M (MigrationList * error) :=
  '(hasRunRes, err) ← db_Query;
  match err with
  | Some _ => mret ([], err)
  | None =>
      hasRun ← scanRows hasRunRes ∅;
      _ ← rows_Close;
      mret (rangeMigs hasRun migs, None)
  end.

(** What [sort.Sort] leaves in the slice it is given.  The library is not
    part of the repository: the properties below assume of it what its
    documentation promises, and [insertionSort] is the instance the
    library runs on short slices. *)
Variable sort_Sort : MigrationList -> MigrationList.

(** [sortMigrations] creates a date sorted migration slice: [make] and
    [copy] give a slice with the same contents, which is then sorted.
    [SliceModel] below has the same function on a store with aliasing. *)
Definition sortMigrations (migs : MigrationList) : MigrationList :=
  let sorted := migs in
  sort_Sort sorted.

(** [sorted[i]]: panics when [i] is out of range. *)
Definition index (sorted : MigrationList) (i : Z) : M Migration :=
  if i <? 0 then panic "index out of range"
  else match sorted !! Z.to_nat i with
       | Some m => mret m
       | None => panic "index out of range"
       end.

(** How one pass through a loop body ends: it falls through to the next
    iteration, or the function returns. *)
Inductive Flow := Continue | Return (err : error).

(** The body of the loop of [migrateUpN]. *)
Definition upStep (sorted : MigrationList) (n i : Z) : M Flow :=
  mig ← index sorted i;
  let name := dbName mig in
  err ← tx_increment (CallUp name) (Up mig);
  match err with
  | Some e =>
      _ ← tx_Rollback;
      mret (Return (Some (Sprintf "Failed to up %s: %s" [AStr name; AStr e])))
  | None =>
      err ← tx_Exec_insert name;
      match err with
      | Some _ => _ ← tx_Rollback; mret (Return err)
      | None =>
          _ ← log_Infof [] "Up'd %s (%d/%d)" [AStr name; AInt (i + 1); AInt n];
          mret Continue
      end
  end.

(** [for i := 0; i < n; i++]: [todo] iterations are left, the next one at
    index [i]. *)
Fixpoint upLoop (sorted : MigrationList) (n : Z) (todo : nat) (i : Z) : M Flow :=
  match todo with
  | O => mret Continue
  | S todo' =>
      f ← upStep sorted n i;
      match f with
      | Continue => upLoop sorted n todo' (i + 1)
      | Return err => mret (Return err)
      end
  end.

(** [migrateUpN] runs N up increments. *)
Definition migrateUpN (migs : MigrationList) (n : Z) : M error :=
  err ← db_Begin;
  match err with
  | Some _ => mret err
  | None =>
      let sorted := sortMigrations migs in
      f ← upLoop sorted n (Z.to_nat n) 0;
      match f with
      | Return err => mret err
      | Continue => tx_Commit
      end
  end.

(** The body of the loop of [migrateDownN]. *)
Definition downStep (sorted : MigrationList) (n i : Z) : M Flow :=
  mig ← index sorted i;
  let name := dbName mig in
  err ← tx_increment (CallDown name) (Down mig);
  match err with
  | Some e =>
      _ ← tx_Rollback;
      mret (Return (Some (Sprintf "Failed to down %s: %s" [AStr name; AStr e])))
  | None =>
      err ← tx_Exec_delete name;
      match err with
      | Some _ => _ ← tx_Rollback; mret (Return err)
      | None =>
          _ ← log_Infof [] "Down'd %s (%d/%d)" [AStr name; AInt i; AInt n];
          mret Continue
      end
  end.

(** [for i := len(sorted) - 1; i > len(sorted)-1-n; i--], entered with
    [i = k - 1] and [bound] the value of [len(sorted)-1-n].  The index
    cannot go below [-1]: the body panics there. *)
Fixpoint downLoop (sorted : MigrationList) (n bound : Z) (k : nat) : M Flow :=
  let i := Z.of_nat k - 1 in
  if i >? bound then
    f ← downStep sorted n i;
    match f with
    | Return err => mret (Return err)
    | Continue =>
        match k with
        | S k' => downLoop sorted n bound k'
        | O => mret Continue
        end
    end
  else mret Continue.

(** [migrateDownN] runs N down increments. *)
Definition migrateDownN (migs : MigrationList) (n : Z) : M error :=
  err ← db_Begin;
  match err with
  | Some _ => mret err
  | None =>
      let sorted := sortMigrations migs in
      f ← downLoop sorted n (wrap64 (Len sorted - 1 - n)) (length sorted);
      match f with
      | Return err => mret err
      | Continue => tx_Commit
      end
  end.

(** [Migrate] runs all migration up increments in date order. *)
Definition Migrate (migs : MigrationList) : M error :=
  err ← checkMigrationTable;
  match err with
  | Some _ => mret err
  | None =>
      '(toRun, err) ← needsToRun migs;
      match err with
      | Some _ => mret err
      | None =>
          _ ← log_Infof [("n", Len toRun)] "Running migrations..." [];
          migrateUpN toRun (Len toRun)
      end
  end.

(** ** Vocabulary of the properties *)

(** The world a computation ends in. *)
Definition after {A} (r : Res A) : World :=
  match r with
  | Done _ w => w
  | Panic _ w => w
  end.

(** The candidates whose tracking key is not a row of the tracking table
    of the store. *)
Definition unapplied (migs : MigrationList) (s : Store) : MigrationList :=
  filter (fun c => dbName c ∉ default [] (tracking s)) migs.

(** The up step of [mig] fails in [w]: its [Up] returns an error, or [Up]
    goes through and the INSERT of its tracking row fails. *)
Definition upFails (mig : Migration) (w : World) : Prop :=
  (exists e w', tx_increment (CallUp (dbName mig)) (Up mig) w = Done (Some e) w')
  \/ (exists w1 e w',
        tx_increment (CallUp (dbName mig)) (Up mig) w = Done None w1
        /\ tx_Exec_insert (dbName mig) w1 = Done (Some e) w').

(** The store once the tracking table has been ensured. *)
Definition ensured (s : Store) : Store :=
  {| schema := schema s; tracking := Some (default [] (tracking s)) |}.

(** The notification [Migrate] sends before it runs the increments. *)
Definition runStart (toRun : MigrationList) : Entry :=
  {| fields := [("n", Len toRun)]; format := "Running migrations..."; args := [] |}.

(** The errors the runners make of a failing increment. *)
Definition wrapUp (name e : string) : string :=
  Sprintf "Failed to up %s: %s" [AStr name; AStr e].
Definition wrapDown (name e : string) : string :=
  Sprintf "Failed to down %s: %s" [AStr name; AStr e].

(** The up increments of [ms] applied in turn to a schema. *)
Definition ups (ms : MigrationList) (sch : Schema) : Schema :=
  foldl (fun sch m => (Up m sch).1) sch ms.

(** The down step of [mig] fails in [w]. *)
Definition downFails (mig : Migration) (w : World) : Prop :=
  (exists e w', tx_increment (CallDown (dbName mig)) (Down mig) w = Done (Some e) w')
  \/ (exists w1 e w',
        tx_increment (CallDown (dbName mig)) (Down mig) w = Done None w1
        /\ tx_Exec_delete (dbName mig) w1 = Done (Some e) w').

(** The progress notification of the up-runner for the step at index [i]. *)
Definition upNote (mig : Migration) (i n : Z) : Entry :=
  {| fields := []; format := "Up'd %s (%d/%d)";
     args := [AStr (dbName mig); AInt (i + 1); AInt n] |}.

Definition downNote (mig : Migration) (i n : Z) : Entry :=
  {| fields := []; format := "Down'd %s (%d/%d)";
     args := [AStr (dbName mig); AInt i; AInt n] |}.

End Model.

Arguments Migration : clear implicits.
Arguments SimpleMigration : clear implicits.
Arguments Store : clear implicits.
Arguments World : clear implicits.
Arguments Res : clear implicits.
Arguments M : clear implicits.
Arguments Done {Schema A} a w.
Arguments Panic {Schema A} msg w.

Abbreviation MigrationList Schema := (list (Migration Schema)).
Abbreviation MigrationIncrement Schema := (Schema -> Schema * error).

(** ** [sortMigrations] on a store with aliasing *)

Module SliceModel.
Section Slices.

Context {Schema : Type}.
Variable sort_Sort : MigrationList Schema -> MigrationList Schema.

(** A slice header: the backing array and the window into it.  An element
    of a [MigrationList] is an interface value, [None] when it is [nil]. *)
Record Slice := mkSlice { ptr : nat; off : nat; len : nat }.

Abbreviation Heap := (gmap nat (list (option (Migration Schema)))).

(** The cells the slice sees; [None] when the header does not fit its
    array. *)
Definition cells (h : Heap) (s : Slice) : option (list (option (Migration Schema))) :=
  arr ← h !! ptr s;
  if decide (off s + len s ≤ length arr)%nat
  then Some (take (len s) (drop (off s) arr))
  else None.

(** The contents when no element is [nil]. *)
Definition elems (h : Heap) (s : Slice) : option (MigrationList Schema) :=
  cs ← cells h s; mapM id cs.

(** Overwrite the cells of [s] from its start with [cs]. *)
Definition store (h : Heap) (s : Slice) (cs : list (option (Migration Schema))) : Heap :=
  alter (fun arr => take (off s) arr ++ cs ++ drop (off s + length cs) arr)
        (ptr s) h.

(** [make(MigrationList, n)]: a fresh array of [n] nil elements. *)
Definition make (h : Heap) (n : nat) : Heap * Slice :=
  let p := fresh (dom h) in
  (<[p := replicate n None]> h, {| ptr := p; off := 0; len := n |}).

(** [copy(dst, src)] *)
Definition copy (h : Heap) (dst src : Slice) : option Heap :=
  cs ← cells h src;
  Some (store h dst (take (len dst `min` len src) cs)).

(** [sort.Sort(data)] sorts in place; it compares nothing when there are
    fewer than two elements, and calling [Date] on a nil element panics. *)
Definition Sort (h : Heap) (data : Slice) : option Heap :=
  if decide (len data ≤ 1)%nat then Some h
  else ml ← elems h data; Some (store h data (Some <$> (sort_Sort ml : list (Migration Schema)))).

(** [sortMigrations] creates a date sorted migration slice. *)
Definition sortMigrations (h : Heap) (migs : Slice) : option (Heap * Slice) :=
  let '(h1, sorted) := make h (len migs) in
  h2 ← copy h1 sorted migs;
  h3 ← Sort h2 sorted;
  Some (h3, sorted).

(** What sorting the caller's slice itself would do. *)
Definition sortInPlace (h : Heap) (migs : Slice) : option (Heap * Slice) :=
  h' ← Sort h migs; Some (h', migs).

End Slices.
End SliceModel.

(** ** Sample worlds *)

(** A driver that never fails. *)
Definition noFaults : Oracle := fun _ _ => None.

(** The sample schema is the list of statements the increments have
    executed. *)
Definition exec (stmt : string) : MigrationIncrement (list string) :=
  fun tx => (tx ++ [stmt], None).

Definition failing (e : string) : MigrationIncrement (list string) :=
  fun tx => (tx, Some e).

Definition emptyDB : World (list string) :=
  {| committed := {| schema := []; tracking := None |};
     tx := None; history := []; sink := [] |}.

Definition withRows (rows : list string) : World (list string) :=
  {| committed := {| schema := []; tracking := Some rows |};
     tx := None; history := []; sink := [] |}.

(** 2020-09-10T08:43:00+10:00 *)
Definition ti : Time := {| sec := 1599691380; nsec := 0 |}.

Definition migA : Migration (list string) :=
  simple (NewSimpleMigration "a" ti (Some (exec "CREATE TABLE users")) None).

Definition migB : Migration (list string) :=
  simple (NewSimpleMigration "b" ti (Some (exec "DROP TABLE users"))
                             (Some (exec "CREATE TABLE users"))).

Definition migBad : Migration (list string) :=
  simple (NewSimpleMigration "b" ti
            (Some (failing "something like a foreign or similar")) None).

(** A second unit with the name and date of [migB]: the two derive the
    same tracking key. *)
Definition migB' : Migration (list string) :=
  simple (NewSimpleMigration "b" ti (Some (exec "ALTER TABLE users")) None).

(** A unit dated five seconds before the others. *)
Definition migC : Migration (list string) :=
  simple (NewSimpleMigration "c" {| sec := 1599691375; nsec := 0 |}
            (Some (exec "CREATE TABLE posts")) (Some (exec "DROP TABLE posts"))).

(** Drivers that fail one kind of call. *)
Definition cursorBreaks : Oracle := fun _ c =>
  match c with
  | CallNext => Some "driver: bad connection"
  | _ => None
  end.

Definition scanBreaks : Oracle := fun _ c =>
  match c with
  | CallScan => Some "sql: Scan error on column index 0"
  | _ => None
  end.

Definition insertFails : Oracle := fun _ c =>
  match c with
  | CallInsert _ => Some "disk full"
  | _ => None
  end.

Definition deleteFails : Oracle := fun _ c =>
  match c with
  | CallDelete _ => Some "disk full"
  | _ => None
  end.



(** A store with two slices: the caller's list at address 0 and a window
    into another array at address 1. *)
Definition sampleHeap : gmap nat (list (option (Migration (list string)))) :=
  {[ 0%nat := [Some migA; Some migB; Some migC];
     1%nat := [None; Some migB; Some migC; None] ]}.

Definition sampleSlice : SliceModel.Slice :=
  {| SliceModel.ptr := 0; SliceModel.off := 0; SliceModel.len := 3 |}.

(** ** Vocabulary of the further properties *)

Section MoreVocabulary.

Context {Schema : Type}.

(** The down increments of [ms] applied in turn to a schema. *)
Definition downs (ms : MigrationList Schema) (sch : Schema) : Schema :=
  foldl (fun sch m => (Down m sch).1) sch ms.

(** The rows left when the DELETE of each unit of [ms] has run in turn. *)
Definition deleteKeys (rows : list string) (ms : MigrationList Schema) : list string :=
  foldl (fun rows m => filter (fun r => r <> dbName m) rows) rows ms.

(** The driver calls of the steps of [ms] that go through, oldest first. *)
Definition upCalls (ms : MigrationList Schema) : History :=
  ms ≫= fun m => [(CallUp (dbName m), None); (CallInsert (dbName m), None)].

Definition downCalls (ms : MigrationList Schema) : History :=
  ms ≫= fun m => [(CallDown (dbName m), None); (CallDelete (dbName m), None)].

(** The key before truncation. *)
Definition composed (mig : Migration Schema) : string :=
  itoa (Unix (Date mig)) +:+ "_" +:+ Name mig.

End MoreVocabulary.

(** The character [c] occurs in [s]. *)
Fixpoint occurs (c : ascii) (s : string) : bool :=
  match s with
  | EmptyString => false
  | String c' s' => if Ascii.eqb c c' then true else occurs c s'
  end.

(** A schema kept as a stack of tables: [push] creates one, [pop] drops
    the newest. *)
Definition push (table : string) : MigrationIncrement (list string) :=
  fun tx => (table :: tx, None).

Definition pop : MigrationIncrement (list string) :=
  fun tx => (tail tx, None).

Definition migUsers : Migration (list string) :=
  simple (NewSimpleMigration "create_users_table" ti (Some (push "users")) (Some pop)).

Definition migPosts : Migration (list string) :=
  simple (NewSimpleMigration "create_posts_table"
            {| sec := 1599691390; nsec := 0 |} (Some (push "posts")) (Some pop)).

(** A unit with no increment in either direction. *)
Definition migNoop : Migration (list string) :=
  simple (NewSimpleMigration "noop" ti None None).

Definition beginFails : Oracle := fun _ c =>
  match c with
  | CallBegin => Some "driver: bad connection"
  | _ => None
  end.

Definition commitFails : Oracle := fun _ c =>
  match c with
  | CallCommit => Some "driver: bad connection"
  | _ => None
  end.

Definition createFails : Oracle := fun _ c =>
  match c with
  | CallCreateTable => Some "permission denied"
  | _ => None
  end.

Definition queryFails : Oracle := fun _ c =>
  match c with
  | CallQuery => Some "driver: bad connection"
  | _ => None
  end.

(** A unit whose down increment fails. *)
Definition migStuck : Migration (list string) :=
  simple (NewSimpleMigration "stuck" {| sec := 1599691400; nsec := 0 |}
            (Some (push "stuck")) (Some (failing "table is in use"))).

(** A database on which [migUsers] and [migPosts] have been applied. *)
Definition appliedDB : World (list string) :=
  {| committed := {| schema := ["posts"; "users"];
                     tracking := Some [dbName migUsers; dbName migPosts] |};
     tx := None; history := []; sink := [] |}.

(** No element of [ml] is dated before one that precedes it. *)
Definition dateOrdered {Schema : Type} (ml : MigrationList Schema) : Prop :=
  forall i j a b, (i < j)%nat -> ml !! i = Some a -> ml !! j = Some b ->
    time_le (Date a) (Date b).

(** A transaction has ended: the history holds a [Commit] or a
    [Rollback]. *)
Definition ended (h : History) : bool :=
  existsb (fun ev => match ev.1 with
                     | CallCommit | CallRollback => true
                     | _ => false
                     end) h.

(** A driver whose cursor fails once a transaction has ended. *)
Definition cursorBreaksLater : Oracle := fun h c =>
  match c with
  | CallNext => if ended h then Some "driver: bad connection" else None
  | _ => None
  end.

(** * Properties *)

(** ** Strings *)

Lemma append_cons (c : ascii) (s t : string) :
  String c s +:+ t = String c (s +:+ t).
Proof. reflexivity. Qed.

Lemma append_nil_r (s : string) : s +:+ "" = s.
Proof. induction s as [|c s IH]; [done|]. by rewrite append_cons, IH. Qed.


Lemma substring_0_all (n : nat) (s : string) :
  (String.length s ≤ n)%nat → substring 0 n s = s.
Proof.
  revert n; induction s as [|c s IH]; intros [|n] H; simpl in *; try done; try lia.
  f_equal. apply IH. lia.
Qed.


Lemma itoa_not_empty (z : Z) : itoa z ≠ "".
Proof.
  unfold itoa. destruct (Z.to_int z) as [d|d]; simpl; [|done].
  destruct d; simpl; done.
Qed.

Lemma Sprintf_key (z : Z) (s : string) :
  Sprintf "%d_%s" [AInt z; AStr s] = itoa z +:+ "_" +:+ s.
Proof.
  change (Sprintf "%d_%s" [AInt z; AStr s]) with (itoa z +:+ String "_" (s +:+ "")).
  change ("_" +:+ s) with (String "_" s).
  by rewrite append_nil_r.
Qed.

Lemma filter_none {A} (P : A → Prop) `{!∀ x, Decision (P x)} (l : list A) :
  (∀ x, x ∈ l → ¬ P x) → filter P l = [].
Proof.
  induction l as [|x l IH]; intros Hl; [done|].
  rewrite filter_cons, decide_False by (apply Hl; left).
  apply IH. intros y Hy. apply Hl. by right.
Qed.

Section Properties.

Context {Schema : Type}.
Implicit Types (mig m : Migration Schema) (migs ml : MigrationList Schema).
Implicit Types (w : World Schema).
Variable env : Oracle.

Ltac munfold := unfold mbind, M_bind, mret, M_ret, panic in *.
Ltac gtb_true := rewrite Z.gtb_ltb, (proj2 (Z.ltb_lt _ _)) by lia.
Ltac gtb_false := rewrite Z.gtb_ltb, (proj2 (Z.ltb_ge _ _)) by lia.
Ltac case_env He :=
  match goal with
  | |- context [env ?h ?c] => destruct (env h c) eqn:He
  end.

Lemma dbName_unfold mig :
  dbName mig = substring 0 500 (itoa (Unix (Date mig)) +:+ "_" +:+ Name mig).
Proof.
  unfold dbName. rewrite Sprintf_key.
  set (s := itoa _ +:+ _).
  destruct (500 <? String.length s)%nat eqn:E; [done|].
  apply Nat.ltb_ge in E. rewrite !substring_0_all; auto.
Qed.

Lemma dbName_not_empty mig : dbName mig ≠ "".
Proof.
  rewrite dbName_unfold.
  pose proof (itoa_not_empty (Unix (Date mig))) as H.
  destruct (itoa (Unix (Date mig))) as [|c s]; [done|]. 
  rewrite append_cons. done.
Qed.

Lemma rangeMigs_filter (hasRun : gmap string bool) migs :
  rangeMigs hasRun migs = filter (λ c, hasRun !! dbName c = None) migs.
Proof.
  unfold rangeMigs.
  enough (H : ∀ acc, foldl (λ toRun migration,
                match hasRun !! dbName migration with
                | Some _ => toRun
                | None => toRun ++ [migration]
                end) acc migs
            = acc ++ filter (λ c, hasRun !! dbName c = None) migs)
    by apply (H []).
  induction migs as [|c migs IH]; intros acc; cbn [foldl].
  - by rewrite app_nil_r.
  - rewrite IH, filter_cons. destruct (hasRun !! dbName c) eqn:E.
    + rewrite decide_False by done. done.
    + rewrite decide_True by done. by rewrite <- app_assoc.
Qed.


(** ** The steps of the runners *)


Lemma upStep_spec sorted n i w :
  match upStep env sorted n i w with
  | Panic _ w' => w' = w ∧ (i < 0 ∨ sorted !! Z.to_nat i = None)
  | Done Continue w' =>
      ∃ m s rows, 0 ≤ i ∧ sorted !! Z.to_nat i = Some m ∧ tx w = Some s
        ∧ tracking s = Some rows ∧ (Up m (schema s)).2 = None
        ∧ (∃ w1 w2, tx_increment (CallUp (dbName m)) (Up m) w = Done None w1
                    ∧ tx_Exec_insert env (dbName m) w1 = Done None w2)
        ∧ w' = {| committed := committed w;
                  tx := Some {| schema := (Up m (schema s)).1;
                                tracking := Some (rows ++ [dbName m]) |};
                  history := (CallInsert (dbName m), None)
                             :: (CallUp (dbName m), None) :: history w;
                  sink := upNote m i n :: sink w |}
  | Done (Return err) w' =>
      ∃ m rb, 0 ≤ i ∧ sorted !! Z.to_nat i = Some m
        ∧ committed w' = committed w ∧ tx w' = None ∧ sink w' = sink w
        ∧ ((∃ e w1, tx_increment (CallUp (dbName m)) (Up m) w = Done (Some e) w1
              ∧ err = Some (wrapUp (dbName m) e)
              ∧ history w' = (CallRollback, rb) :: (CallUp (dbName m), Some e) :: history w)
           ∨ (∃ e w1 w2, tx_increment (CallUp (dbName m)) (Up m) w = Done None w1
              ∧ tx_Exec_insert env (dbName m) w1 = Done (Some e) w2
              ∧ err = Some e
              ∧ history w' = (CallRollback, rb) :: (CallInsert (dbName m), Some e)
                             :: (CallUp (dbName m), None) :: history w))
  end.
Proof.
  unfold upStep, index. munfold.
  destruct (i <? 0) eqn:Hi.
  { split; [done|]. left. lia. }
  apply Z.ltb_ge in Hi.
  destruct (sorted !! Z.to_nat i) as [m|] eqn:Hm; [|by split; [|right]].
  unfold tx_increment at 1.
  destruct (tx w) as [s|] eqn:Htx.
  - destruct (Up m (schema s)) as [sch [e|]] eqn:HUp.
    + cbn. exists m. eexists. repeat (split; [done|]).
      left. exists e. eexists. split; [|done].
      unfold tx_increment. by rewrite Htx, HUp.
    + unfold tx_Exec_insert, tx_Exec, outcome. cbn.
      case_env He.
      * cbn. exists m. eexists. repeat (split; [done|]).
        right. eexists. eexists. eexists. split.
        { unfold tx_increment. by rewrite Htx, HUp. }
        split; [|done]. unfold tx_Exec_insert, tx_Exec, outcome. cbn. by rewrite He.
      * destruct (tracking s) as [rows|] eqn:Hrows.
        -- cbn. exists m, s, rows. rewrite HUp. repeat (split; [done|]).
           split; [|done]. eexists. eexists. split.
           { unfold tx_increment. by rewrite Htx, HUp. }
           unfold tx_Exec_insert, tx_Exec, outcome. cbn. by rewrite He, Hrows.
        -- cbn. exists m. eexists. repeat (split; [done|]).
           right. eexists. eexists. eexists. split.
           { unfold tx_increment. by rewrite Htx, HUp. }
           split; [|done]. unfold tx_Exec_insert, tx_Exec, outcome. cbn.
           by rewrite He, Hrows.
  - cbn. exists m. eexists. repeat (split; [done|]).
    left. eexists. eexists. split; [|done].
    unfold tx_increment. by rewrite Htx.
Qed.



Lemma downStep_spec sorted n i w :
  match downStep env sorted n i w with
  | Panic _ w' => w' = w ∧ (i < 0 ∨ sorted !! Z.to_nat i = None)
  | Done Continue w' =>
      ∃ m s rows, 0 ≤ i ∧ sorted !! Z.to_nat i = Some m ∧ tx w = Some s
        ∧ tracking s = Some rows ∧ (Down m (schema s)).2 = None
        ∧ (∃ w1 w2, tx_increment (CallDown (dbName m)) (Down m) w = Done None w1
                    ∧ tx_Exec_delete env (dbName m) w1 = Done None w2)
        ∧ w' = {| committed := committed w;
                  tx := Some {| schema := (Down m (schema s)).1;
                                tracking := Some (filter (λ r, r ≠ dbName m) rows) |};
                  history := (CallDelete (dbName m), None)
                             :: (CallDown (dbName m), None) :: history w;
                  sink := downNote m i n :: sink w |}
  | Done (Return err) w' =>
      ∃ m rb, 0 ≤ i ∧ sorted !! Z.to_nat i = Some m
        ∧ committed w' = committed w ∧ tx w' = None ∧ sink w' = sink w
        ∧ ((∃ e w1, tx_increment (CallDown (dbName m)) (Down m) w = Done (Some e) w1
              ∧ err = Some (wrapDown (dbName m) e)
              ∧ history w' = (CallRollback, rb) :: (CallDown (dbName m), Some e) :: history w)
           ∨ (∃ e w1 w2, tx_increment (CallDown (dbName m)) (Down m) w = Done None w1
              ∧ tx_Exec_delete env (dbName m) w1 = Done (Some e) w2
              ∧ err = Some e
              ∧ history w' = (CallRollback, rb) :: (CallDelete (dbName m), Some e)
                             :: (CallDown (dbName m), None) :: history w))
  end.
Proof.
  unfold downStep, index. munfold.
  destruct (i <? 0) eqn:Hi.
  { split; [done|]. left. lia. }
  apply Z.ltb_ge in Hi.
  destruct (sorted !! Z.to_nat i) as [m|] eqn:Hm; [|by split; [|right]].
  unfold tx_increment at 1.
  destruct (tx w) as [s|] eqn:Htx.
  - destruct (Down m (schema s)) as [sch [e|]] eqn:HDown.
    + cbn. exists m. eexists. repeat (split; [done|]).
      left. exists e. eexists. split; [|done].
      unfold tx_increment. by rewrite Htx, HDown.
    + unfold tx_Exec_delete, tx_Exec, outcome. cbn.
      case_env He.
      * cbn. exists m. eexists. repeat (split; [done|]).
        right. eexists. eexists. eexists. split.
        { unfold tx_increment. by rewrite Htx, HDown. }
        split; [|done]. unfold tx_Exec_delete, tx_Exec, outcome. cbn. by rewrite He.
      * destruct (tracking s) as [rows|] eqn:Hrows.
        -- cbn. exists m, s, rows. rewrite HDown. repeat (split; [done|]).
           split; [|done]. eexists. eexists. split.
           { unfold tx_increment. by rewrite Htx, HDown. }
           unfold tx_Exec_delete, tx_Exec, outcome. cbn. by rewrite He, Hrows.
        -- cbn. exists m. eexists. repeat (split; [done|]).
           right. eexists. eexists. eexists. split.
           { unfold tx_increment. by rewrite Htx, HDown. }
           split; [|done]. unfold tx_Exec_delete, tx_Exec, outcome. cbn.
           by rewrite He, Hrows.
  - cbn. exists m. eexists. repeat (split; [done|]).
    left. eexists. eexists. split; [|done].
    unfold tx_increment. by rewrite Htx.
Qed.

(** ** The loops *)

Lemma upLoop_S sorted n todo i w :
  upLoop env sorted n (S todo) i w =
  match upStep env sorted n i w with
  | Done Continue w' => upLoop env sorted n todo (i + 1) w'
  | Done (Return err) w' => Done (Return err) w'
  | Panic msg w' => Panic msg w'
  end.
Proof.
  cbn [upLoop]. munfold. by destruct (upStep env sorted n i w) as [[|]|].
Qed.

Lemma upLoop_add sorted n a b i w :
  upLoop env sorted n (a + b) i w =
  match upLoop env sorted n a i w with
  | Done Continue w' => upLoop env sorted n b (i + Z.of_nat a) w'
  | Done (Return err) w' => Done (Return err) w'
  | Panic msg w' => Panic msg w'
  end.
Proof.
  revert i w. induction a as [|a IH]; intros i w.
  - cbn. by rewrite Z.add_0_r.
  - change (S a + b)%nat with (S (a + b)). rewrite !upLoop_S.
    destruct (upStep env sorted n i w) as [[|err] w'|msg w']; [|done..].
    rewrite IH. replace (i + 1 + Z.of_nat a) with (i + Z.of_nat (S a)) by lia. done.
Qed.

(** The loop never touches the committed store; when it returns, it
    returns an error after rolling back. *)
Lemma upLoop_frame sorted n todo i w :
  committed (after (upLoop env sorted n todo i w)) = committed w
  ∧ ∀ err w', upLoop env sorted n todo i w = Done (Return err) w' →
      is_Some err ∧ tx w' = None ∧ ∃ rb h, history w' = (CallRollback, rb) :: h.
Proof.
  revert i w. induction todo as [|todo IH]; intros i w.
  - cbn. split; [done|]. intros ?? [=].
  - rewrite upLoop_S. pose proof (upStep_spec sorted n i w) as Hs.
    destruct (upStep env sorted n i w) as [[|err] w1|msg w1].
    + destruct Hs as (m & s & rows & _ & _ & _ & _ & _ & _ & ->).
      destruct (IH (i + 1) {| committed := committed w;
          tx := Some {| schema := (Up m (schema s)).1;
                        tracking := Some (rows ++ [dbName m]) |};
          history := (CallInsert (dbName m), None) :: (CallUp (dbName m), None) :: history w;
          sink := upNote m i n :: sink w |}) as [IH1 IH2].
      split; [by rewrite IH1|]. exact IH2.
    + destruct Hs as (m & rb & _ & _ & Hc & Htx & _ & Hcase).
      split; [done|]. intros err' w' [= <- <-]. split; [|split; [done|]].
      * destruct Hcase as [(e & ? & _ & -> & _)|(e & ? & ? & _ & _ & -> & _)]; eauto.
      * destruct Hcase as [(e & ? & _ & _ & ->)|(e & ? & ? & _ & _ & _ & ->)]; eauto.
    + destruct Hs as [-> _]. split; [done|]. intros ?? [=].
Qed.


(** The loop falls through exactly when [todo] steps from index [i] all go
    through; the working copy then holds their schema changes and their
    tracking rows, in index order. *)
Lemma upLoop_continue sorted n todo (i : nat) w w' s :
  upLoop env sorted n todo (Z.of_nat i) w = Done Continue w' →
  tx w = Some s →
  let ms := take todo (drop i sorted) in
  length ms = todo
  ∧ committed w' = committed w
  ∧ tx w' = Some {| schema := ups ms (schema s);
                    tracking := (λ rows, rows ++ (dbName <$> ms)) <$> tracking s |}
  ∧ sink w' = reverse (imap (λ j m, upNote m (Z.of_nat (i + j)) n) ms) ++ sink w
  ∧ ∃ new, history w' = new ++ history w
      ∧ Forall (λ ev, ev.2 = None ∧ applies ev.1) new.
Proof.
  revert i w s. induction todo as [|todo IH]; intros i w s.
  - cbn. intros [= <-] Htx.
    repeat split; try done.
    + rewrite Htx. f_equal. destruct s as [sch [rows|]]; cbn; [|done].
      by rewrite app_nil_r.
    + by exists [].
  - rewrite upLoop_S. pose proof (upStep_spec sorted n (Z.of_nat i) w) as Hs.
    destruct (upStep env sorted n (Z.of_nat i) w) as [[|err] w1|msg w1]; [|done..].
    destruct Hs as (m & s' & rows' & _ & Hm & Htx' & Hrows' & HUp & _ & ->).
    intros Hloop Htx. rewrite Htx in Htx'. injection Htx' as <-.
    rewrite Nat2Z.id in Hm.
    replace (Z.of_nat i + 1) with (Z.of_nat (S i)) in Hloop by lia.
    eapply IH in Hloop; [|done..]. cbn [tx committed sink history schema] in Hloop.
    destruct Hloop as (Hlen & Hc & Htx2 & Hsink & new & Hh & Hnew).
    rewrite (drop_S _ _ _ Hm). cbn [take].
    split; [by cbn; rewrite Hlen|]. split; [done|]. split; [|split].
    + rewrite Htx2, Hrows'. cbn. by rewrite <- app_assoc.
    + rewrite Hsink. cbn [imap]. rewrite reverse_cons, <- app_assoc. cbn.
      rewrite Nat.add_0_r. do 2 f_equal. apply imap_ext. intros j x _. cbn.
      do 3 f_equal. lia.
    + exists (new ++ [(CallInsert (dbName m), None); (CallUp (dbName m), None)]).
      split; [by rewrite Hh, <- app_assoc|].
      apply Forall_app. split; [done|]. by repeat constructor.
Qed.


(** The loop panics only by running past the end of the list. *)
Lemma upLoop_panic sorted n todo (i : nat) w msg w' :
  upLoop env sorted n todo (Z.of_nat i) w = Panic msg w' →
  (length sorted < i + todo)%nat.
Proof.
  revert i w. induction todo as [|todo IH]; intros i w; [done|].
  rewrite upLoop_S. pose proof (upStep_spec sorted n (Z.of_nat i) w) as Hs.
  destruct (upStep env sorted n (Z.of_nat i) w) as [[|err] w1|msg1 w1]; [|done|].
  - replace (Z.of_nat i + 1) with (Z.of_nat (S i)) by lia.
    intros H%IH. lia.
  - intros _. destruct Hs as [_ [?|Hn]]; [lia|].
    rewrite Nat2Z.id in Hn. apply lookup_ge_None in Hn. lia.
Qed.

(** Once every element has gone through, one more iteration panics. *)
Lemma upLoop_overrun sorted n todo w wl :
  upLoop env sorted n (length sorted) 0 w = Done Continue wl →
  (length sorted < todo)%nat →
  ∃ msg, upLoop env sorted n todo 0 w = Panic msg wl.
Proof.
  intros Hall Hlt.
  replace todo with (length sorted + S (todo - length sorted - 1))%nat by lia.
  rewrite upLoop_add, Hall, upLoop_S.
  pose proof (upStep_spec sorted n (0 + Z.of_nat (length sorted)) wl) as Hs.
  destruct (upStep env sorted n _ wl) as [[|err] w1|msg1 w1].
  - destruct Hs as (m & _ & _ & _ & Hm & _).
    rewrite Z.add_0_l, Nat2Z.id in Hm. apply lookup_lt_Some in Hm. lia.
  - destruct Hs as (m & _ & _ & Hm & _).
    rewrite Z.add_0_l, Nat2Z.id in Hm. apply lookup_lt_Some in Hm. lia.
  - destruct Hs as [-> _]. by exists msg1.
Qed.

Lemma downLoop_unfold sorted n bound k w :
  downLoop env sorted n bound k w =
  if Z.of_nat k - 1 >? bound then
    match downStep env sorted n (Z.of_nat k - 1) w with
    | Done Continue w' =>
        match k with
        | S k' => downLoop env sorted n bound k' w'
        | O => Done Continue w'
        end
    | Done (Return err) w' => Done (Return err) w'
    | Panic msg w' => Panic msg w'
    end
  else Done Continue w.
Proof.
  destruct k; cbn [downLoop]; munfold;
    (destruct (_ >? bound); [|done]);
    by destruct (downStep env sorted n _ w) as [[|]|].
Qed.

(** Stopping the down loop early at the bound [b] and entering it again
    there is running it to the end. *)
Lemma downLoop_split sorted n bound b k w :
  bound ≤ b → -1 ≤ b ≤ Z.of_nat k - 1 →
  downLoop env sorted n bound k w =
  match downLoop env sorted n b k w with
  | Done Continue w' => downLoop env sorted n bound (Z.to_nat (b + 1)) w'
  | Done (Return err) w' => Done (Return err) w'
  | Panic msg w' => Panic msg w'
  end.
Proof.
  intros Hb. revert w. induction k as [|k IH]; intros w Hk.
  - rewrite (downLoop_unfold _ _ b).
    gtb_false.
    by replace (Z.to_nat (b + 1)) with 0%nat by lia.
  - rewrite (downLoop_unfold _ _ b), (downLoop_unfold _ _ bound (S k)).
    destruct (Z.of_nat (S k) - 1 >? b) eqn:E.
    + rewrite Z.gtb_ltb in E. apply Z.ltb_lt in E. gtb_true.
      destruct (downStep env sorted n _ w) as [[|err] w1|msg1 w1]; [|done..].
      apply IH. lia.
    + rewrite Z.gtb_ltb in E. apply Z.ltb_ge in E.
      replace (Z.to_nat (b + 1)) with (S k) by lia.
      by rewrite (downLoop_unfold _ _ bound (S k)).
Qed.

Lemma downLoop_frame sorted n bound k w :
  committed (after (downLoop env sorted n bound k w)) = committed w
  ∧ ∀ err w', downLoop env sorted n bound k w = Done (Return err) w' →
      is_Some err ∧ tx w' = None ∧ ∃ rb h, history w' = (CallRollback, rb) :: h.
Proof.
  revert w. induction k as [|k IH]; intros w; rewrite downLoop_unfold;
    (destruct (_ >? bound); [|by split; [|intros ?? [=]]]);
    (match goal with
     | |- context [downStep env sorted n ?i w] =>
         pose proof (downStep_spec sorted n i w) as Hs
     end);
    destruct (downStep env sorted n _ w) as [[|err] w1|msg1 w1].
  all: try (destruct Hs as [-> _]; by split; [|intros ?? [=]]).
  all: try (destruct Hs as (m & rb & _ & _ & Hc & Htx & _ & Hcase);
    split; [done|]; intros err' w' [= <- <-]; split; [|split; [done|]];
    [destruct Hcase as [(e & ? & _ & -> & _)|(e & ? & ? & _ & _ & -> & _)]; eauto
    |destruct Hcase as [(e & ? & _ & _ & ->)|(e & ? & ? & _ & _ & _ & ->)]; eauto]).
  - destruct Hs as (m & _ & _ & ? & _). lia.
  - destruct Hs as (m & s & rows & _ & _ & _ & _ & _ & _ & ->).
    destruct (IH {| committed := committed w;
          tx := Some {| schema := (Down m (schema s)).1;
                        tracking := Some (filter (λ r, r ≠ dbName m) rows) |};
          history := (CallDelete (dbName m), None) :: (CallDown (dbName m), None) :: history w;
          sink := downNote m (Z.of_nat (S k) - 1) n :: sink w |}) as [IH1 IH2].
    split; [by rewrite IH1|]. exact IH2.
Qed.

(** The down loop panics only when its bound lies below [-1], that is
    when it is asked for more steps than there are elements. *)
Lemma downLoop_panic sorted n bound k w msg w' :
  (k ≤ length sorted)%nat →
  downLoop env sorted n bound k w = Panic msg w' → bound < -1.
Proof.
  revert w. induction k as [|k IH]; intros w Hk; rewrite downLoop_unfold;
    (destruct (_ >? bound) eqn:E; [|done]);
    rewrite Z.gtb_ltb in E; apply Z.ltb_lt in E;
    (match goal with
     | |- context [downStep env sorted n ?i w] =>
         pose proof (downStep_spec sorted n i w) as Hs
     end);
    destruct (downStep env sorted n _ w) as [[|err] w1|msg1 w1]; try done.
  - apply IH. lia.
  - intros _. destruct Hs as [_ [?|Hn]]; [lia|].
    apply lookup_ge_None in Hn. lia.
Qed.

(** Below [-1] the loop walks off the front of the list once every
    element has gone through. *)
Lemma downLoop_overrun sorted n bound w wl :
  downLoop env sorted n (-1) (length sorted) w = Done Continue wl →
  bound < -1 →
  ∃ msg, downLoop env sorted n bound (length sorted) w = Panic msg wl.
Proof.
  intros Hall Hlt.
  rewrite (downLoop_split _ _ bound (-1)), Hall by lia.
  change (Z.to_nat (-1 + 1)) with 0%nat. rewrite downLoop_unfold.
  gtb_true.
  pose proof (downStep_spec sorted n (Z.of_nat 0 - 1) wl) as Hs.
  destruct (downStep env sorted n _ wl) as [[|err] w1|msg1 w1].
  - destruct Hs as (m & _ & _ & ? & _). lia.
  - destruct Hs as (m & _ & ? & _). lia.
  - destruct Hs as [-> _]. by exists msg1.
Qed.


(** ** Reconciliation *)

(** Whatever the driver does, the scan loop ends, changes nothing but the
    history, and collects only rows of the table or the empty string. *)
Ltac solve_read :=
  repeat (apply Forall_cons; split; [unfold readEvent; cbn; tauto|]);
  by apply Forall_nil.

Lemma scanRows_frame (rows : list string) (A : gmap string bool) w :
  ∃ A' w' new,
    scanRows env rows A w = Done A' w'
    ∧ committed w' = committed w ∧ tx w' = tx w ∧ sink w' = sink w
    ∧ history w' = new ++ history w ∧ Forall readEvent new
    ∧ ∀ k, is_Some (A' !! k) → is_Some (A !! k) ∨ k ∈ rows ∨ k = "".
Proof.
  revert A w. induction rows as [|r rows IH]; intros A w.
  - cbn. munfold. unfold rows_Next. cbn.
    destruct (outcome env w CallNext None) as [e|] eqn:He;
      (eexists A, _, [(CallNext, _)]; split; [done|]);
      cbn; (do 4 (split; [done|])); (split; [solve_read|by left]).
  - cbn [scanRows]. munfold. unfold rows_Next at 1. cbn match.
    destruct (outcome env w CallNext None) as [e|] eqn:He.
    + eexists A, _, [(CallNext, _)]. split; [done|]. cbn.
      do 4 (split; [done|]). split; [solve_read|by left].
    + unfold rows_Scan. cbn match.
      match goal with
      | |- context [scanRows env rows ?A1 ?w1] =>
          destruct (IH A1 w1) as (A' & w' & new & Hrun & Hc & Htx & Hs & Hh & Hnew & HA)
      end.
      eexists A', w', (new ++ [(CallScan, _); (CallNext, _)]). split; [exact Hrun|].
      cbn in Hc, Htx, Hs, Hh. do 3 (split; [done|]). split; [|split].
      * by rewrite Hh, <- app_assoc.
      * apply Forall_app. split; [done|]. solve_read.
      * intros k [Hk|[Hk| ->]]%HA; [|right; left; by right|by right; right].
        destruct (outcome env _ CallScan None);
          (destruct (decide (k = r)) as [->|Hne];
            [|destruct (decide (k = "")) as [->|Hne2]]);
          try (by right; right); try (by right; left; left);
          rewrite ?lookup_insert_ne in Hk by done; by left.
Qed.


Lemma foldl_insert_lookup (rows : list string) (A : gmap string bool) (k : string) :
  foldl (λ A r, <[r := true]> A) A rows !! k = None ↔ A !! k = None ∧ k ∉ rows.
Proof.
  revert A. induction rows as [|r rows IH]; intros A; cbn.
  - split; [intros H; split; [done|apply not_elem_of_nil]|by intros [? _]].
  - rewrite IH, not_elem_of_cons. destruct (decide (k = r)) as [->|Hne].
    + rewrite lookup_insert_eq. clear IH. intuition congruence.
    + rewrite lookup_insert_ne by done. clear IH. intuition congruence.
Qed.

(** With a clean read the scan loop collects exactly the rows. *)
Lemma scanRows_clean h0 (rows : list string) (A A' : gmap string bool) w w' :
  readsClean env h0 → h0 `suffix_of` history w →
  scanRows env rows A w = Done A' w' →
  A' = foldl (λ A r, <[r := true]> A) A rows.
Proof.
  intros Hclean. revert A w. induction rows as [|r rows IH]; intros A w Hsuf.
  - cbn. munfold. unfold rows_Next. cbn.
    by destruct (outcome env w CallNext None); intros [= <- _].
  - cbn [scanRows foldl]. munfold. unfold rows_Next at 1, rows_Scan, outcome.
    destruct (Hclean _ Hsuf) as [Hnext _].
    destruct (Hclean ((CallNext, None) :: history w)) as [_ Hscan].
    { by apply suffix_cons_r. }
    rewrite !Hnext. cbn. rewrite !Hscan.
    apply IH. cbn. by do 2 apply suffix_cons_r.
Qed.

Lemma needsToRun_frame migs w :
  ∃ toRun err w' new,
    needsToRun env migs w = Done (toRun, err) w'
    ∧ committed w' = committed w ∧ tx w' = tx w ∧ sink w' = sink w
    ∧ history w' = new ++ history w ∧ Forall readEvent new
    ∧ (tracking (committed w) ≠ None → env (history w) CallQuery = None → err = None).
Proof.
  unfold needsToRun, db_Query. munfold.
  destruct (outcome env w CallQuery _) as [e|] eqn:He.
  - cbn. eexists _, _, _, [(CallQuery, _)]. split; [done|]. cbn.
    do 4 (split; [done|]). split; [solve_read|].
    intros Ht Hq. unfold outcome in He. rewrite Hq in He.
    by destruct (tracking (committed w)).
  - destruct (tracking (committed w)) as [rows|] eqn:Hrows.
    + cbn match.
      match goal with
      | |- context [scanRows env rows ?A1 ?w1] =>
          destruct (scanRows_frame rows A1 w1)
            as (A' & w' & new & Hrun & Hc & Htx & Hs & Hh & Hnew & _)
      end.
      rewrite Hrun. unfold rows_Close. cbn.
      eexists _, _, _, ((CallClose, _) :: new ++ [(CallQuery, _)]).
      split; [done|]. cbn in *. do 3 (split; [done|]). split; [|split; [|done]].
      * by rewrite Hh, <- app_assoc.
      * apply Forall_cons. split; [unfold readEvent; cbn; tauto|].
        apply Forall_app. split; [done|]. solve_read.
    + unfold outcome in He. by destruct (env (history w) CallQuery).
Qed.

(** What a reconciliation that returns no error returns: the candidates
    whose key is not among the keys it has read, in the order given. *)
Lemma needsToRun_sound migs w toRun w' :
  needsToRun env migs w = Done (toRun, None) w' →
  ∃ rows (A : gmap string bool),
    tracking (committed w) = Some rows
    ∧ (∀ k, is_Some (A !! k) → k ∈ rows ∨ k = "")
    ∧ toRun = filter (λ c, A !! dbName c = None) migs.
Proof.
  unfold needsToRun, db_Query. munfold.
  destruct (outcome env w CallQuery _) as [e|] eqn:He; [by cbn|].
  destruct (tracking (committed w)) as [rows|] eqn:Hrows.
  - cbn match.
    match goal with
    | |- context [scanRows env rows ?A1 ?w1] =>
        destruct (scanRows_frame rows A1 w1)
          as (A' & w1' & new & Hrun & _ & _ & _ & _ & _ & HA)
    end.
    rewrite Hrun. unfold rows_Close. cbn. intros [= <- _].
    exists rows, A'. split; [done|]. split; [|apply rangeMigs_filter].
    intros k [Hk|Hk]%HA; [|done]. rewrite lookup_empty in Hk. by destruct Hk.
  - unfold outcome in He. by destruct (env (history w) CallQuery).
Qed.

Lemma needsToRun_clean h0 migs w toRun w' :
  readsClean env h0 → h0 `suffix_of` history w →
  needsToRun env migs w = Done (toRun, None) w' →
  toRun = unapplied migs (committed w).
Proof.
  intros Hclean Hsuf. unfold needsToRun, db_Query. munfold.
  destruct (outcome env w CallQuery _) as [e|] eqn:He; [by cbn|].
  destruct (tracking (committed w)) as [rows|] eqn:Hrows.
  - cbn match.
    destruct (scanRows env rows ∅ (note CallQuery None w)) as [A' w1|] eqn:Hrun; [|done].
    eapply scanRows_clean in Hrun; [|done|by apply suffix_cons_r].
    unfold rows_Close. cbn. intros [= <- _].
    rewrite rangeMigs_filter. unfold unapplied. rewrite Hrows. cbn.
    apply list_filter_iff. intros c. rewrite Hrun, foldl_insert_lookup, lookup_empty.
    tauto.
  - unfold outcome in He. by destruct (env (history w) CallQuery).
Qed.


Lemma unapplied_ensured migs (s : Store Schema) :
  unapplied migs (ensured s) = unapplied migs s.
Proof. unfold unapplied. cbn. by destruct (tracking s). Qed.

(** C2. With the tracking table holding [rows] and a read that goes
    through, reconciliation returns exactly the candidates whose tracking
    key is not a row, in the order the candidates were given, and leaves
    the database as it was; run again, it returns the same list. *)
Theorem needsToRun_reconciles migs w rows :
  tracking (committed w) = Some rows →
  (∀ h, history w `suffix_of` h → env h CallQuery = None) →
  readsClean env (history w) →
  ∃ toRun w1 w2,
    needsToRun env migs w = Done (toRun, None) w1
    ∧ toRun = filter (λ c, dbName c ∉ rows) migs
    ∧ (∀ c, c ∈ toRun ↔ c ∈ migs ∧ dbName c ∉ rows)
    ∧ toRun `sublist_of` migs
    ∧ committed w1 = committed w ∧ tx w1 = tx w
    ∧ needsToRun env migs w1 = Done (toRun, None) w2.
Proof.
  intros Hrows Hquery Hclean.
  destruct (needsToRun_frame migs w)
    as (toRun & err & w1 & new & Hrun & Hc & Htx & _ & Hh & _ & Herr).
  rewrite Herr in Hrun; [|by rewrite Hrows|by apply Hquery].
  assert (HtoRun : toRun = filter (λ c, dbName c ∉ rows) migs).
  { rewrite (needsToRun_clean _ _ _ _ _ Hclean (reflexivity _) Hrun).
    unfold unapplied. by rewrite Hrows. }
  assert (Hsuf : history w `suffix_of` history w1).
  { rewrite Hh. by apply suffix_app_r. }
  destruct (needsToRun_frame migs w1)
    as (toRun2 & err2 & w2 & new2 & Hrun2 & _ & _ & _ & _ & _ & Herr2).
  rewrite Herr2 in Hrun2; [|by rewrite Hc, Hrows|by apply Hquery].
  exists toRun, w1, w2. split; [done|]. split; [done|]. split; [|split].
  - intros c. rewrite HtoRun, list_elem_of_filter. tauto.
  - rewrite HtoRun. apply sublist_filter.
  - do 2 (split; [done|]). rewrite Hrun2. do 2 f_equal.
    rewrite (needsToRun_clean _ _ _ _ _ Hclean Hsuf Hrun2), HtoRun.
    unfold unapplied. by rewrite Hc, Hrows.
Qed.

(** ** The runners *)

Section WithSort.

Variable sort_Sort : MigrationList Schema → MigrationList Schema.
Hypothesis sort_Sort_perm : ∀ ml, sort_Sort ml ≡ₚ ml.


Lemma db_Begin_spec w e w1 :
  db_Begin env w = Done e w1 →
  committed w1 = committed w ∧ sink w1 = sink w
  ∧ history w1 = (CallBegin, e) :: history w
  ∧ (e = None → tx w1 = Some (committed w))
  ∧ (is_Some e → tx w1 = tx w).
Proof.
  unfold db_Begin, outcome. case_env He; intros [= <- <-]; cbn;
    repeat split; try done; by intros [? [=]].
Qed.

Lemma tx_Commit_spec w s :
  tx w = Some s →
  ∃ e w', tx_Commit env w = Done e w' ∧ tx w' = None ∧ sink w' = sink w
    ∧ history w' = (CallCommit, e) :: history w
    ∧ (e = None → committed w' = s)
    ∧ (is_Some e → committed w' = committed w).
Proof.
  intros Htx. unfold tx_Commit, outcome. rewrite Htx. case_env He.
  - eexists. eexists. split; [done|]. cbn. repeat split; try done.
  - eexists. eexists. split; [done|]. cbn. repeat split; try done; by intros [? [=]].
Qed.

Lemma migrateUpN_begun migs n w w1 :
  db_Begin env w = Done None w1 →
  migrateUpN env sort_Sort migs n w =
  match upLoop env (sortMigrations sort_Sort migs) n (Z.to_nat n) 0 w1 with
  | Done Continue w' => tx_Commit env w'
  | Done (Return err) w' => Done err w'
  | Panic msg w' => Panic msg w'
  end.
Proof.
  intros Hb. unfold migrateUpN. munfold. rewrite Hb.
  by destruct (upLoop _ _ _ _ _ _) as [[|]|].
Qed.

Lemma migrateDownN_begun migs n w w1 :
  db_Begin env w = Done None w1 →
  migrateDownN env sort_Sort migs n w =
  let sorted := sortMigrations sort_Sort migs in
  match downLoop env sorted n (wrap64 (Len sorted - 1 - n)) (length sorted) w1 with
  | Done Continue w' => tx_Commit env w'
  | Done (Return err) w' => Done err w'
  | Panic msg w' => Panic msg w'
  end.
Proof.
  intros Hb. unfold migrateDownN. munfold. rewrite Hb. cbn zeta.
  by destruct (downLoop _ _ _ _ _ _) as [[|]|].
Qed.

(** When the steps before index [k] go through and the step at [k]
    returns, the up-runner returns what that step returns. *)
Lemma migrateUpN_returns migs n (k : nat) w w1 wk err w' :
  Z.of_nat k < n →
  db_Begin env w = Done None w1 →
  upLoop env (sortMigrations sort_Sort migs) n k 0 w1 = Done Continue wk →
  upStep env (sortMigrations sort_Sort migs) n (Z.of_nat k) wk = Done (Return err) w' →
  migrateUpN env sort_Sort migs n w = Done err w'.
Proof.
  intros Hk Hb Hpre Hstep. rewrite (migrateUpN_begun _ _ _ _ Hb).
  replace (Z.to_nat n) with (k + S (Z.to_nat n - k - 1))%nat by lia.
  by rewrite upLoop_add, Hpre, upLoop_S, Z.add_0_l, Hstep.
Qed.

Lemma wrap64_id z : - 2 ^ 63 ≤ z < 2 ^ 63 → wrap64 z = z.
Proof. intros H. unfold wrap64. rewrite Z.mod_small; lia. Qed.

(** The same for the down-runner: [j] steps have gone through, the next
    one is at index [len - 1 - j]. *)
Lemma migrateDownN_returns migs n (j : nat) w w1 wj err w' :
  let sorted := sortMigrations sort_Sort migs in
  Z.of_nat j < n < 2 ^ 63 → Len sorted < 2 ^ 63 → (j < length sorted)%nat →
  db_Begin env w = Done None w1 →
  downLoop env sorted n (Len sorted - 1 - Z.of_nat j) (length sorted) w1
    = Done Continue wj →
  downStep env sorted n (Len sorted - 1 - Z.of_nat j) wj = Done (Return err) w' →
  migrateDownN env sort_Sort migs n w = Done err w'.
Proof.
  intros sorted Hn Hlen Hj Hb Hpre Hstep.
  rewrite (migrateDownN_begun _ _ _ _ Hb). fold sorted. cbn zeta.
  unfold Len in *. rewrite wrap64_id by lia.
  rewrite (downLoop_split _ _ _ (Z.of_nat (length sorted) - 1 - Z.of_nat j)), Hpre by lia.
  rewrite downLoop_unfold.
  replace (Z.of_nat (Z.to_nat (Z.of_nat (length sorted) - 1 - Z.of_nat j + 1)) - 1)
    with (Z.of_nat (length sorted) - 1 - Z.of_nat j) by lia.
  gtb_true. by rewrite Hstep.
Qed.


(** A step that fails does not fall through. *)
Lemma upFails_not_continue sorted n (k : nat) wk m w' :
  sorted !! k = Some m → upFails env m wk →
  upStep env sorted n (Z.of_nat k) wk ≠ Done Continue w'.
Proof.
  intros Hm Hfail Hstep.
  pose proof (upStep_spec sorted n (Z.of_nat k) wk) as Hs. rewrite Hstep in Hs.
  destruct Hs as (m' & s & rows & _ & Hm' & _ & _ & _ & (v1 & v2 & Hinc & Hins) & _).
  rewrite Nat2Z.id, Hm in Hm'. injection Hm' as <-.
  destruct Hfail as [(e & ? & Hf)|(u1 & e & u2 & Hf1 & Hf2)]; [congruence|].
  rewrite Hinc in Hf1. injection Hf1 as <-. congruence.
Qed.

(** C1. If the increments before the k-th of n go through and the k-th
    fails (its [Up] returns an error, or the insert of its tracking row
    fails), the up-runner rolls the transaction back and returns a
    non-nil error; the committed store, tracking rows and schema alike,
    is what it was before the batch, and nothing was committed on the way. *)
Theorem migrateUpN_atomic migs n (k : nat) w w1 wk m :
  Z.of_nat k < n →
  db_Begin env w = Done None w1 →
  upLoop env (sortMigrations sort_Sort migs) n k 0 w1 = Done Continue wk →
  sortMigrations sort_Sort migs !! k = Some m →
  upFails env m wk →
  ∃ e w' rb new,
    migrateUpN env sort_Sort migs n w = Done (Some e) w'
    ∧ committed w' = committed w
    ∧ tx w' = None
    ∧ history w' = (CallRollback, rb) :: new ++ history w
    ∧ ∀ r, (CallCommit, r) ∉ new.
Proof.
  intros Hk Hb Hpre Hm Hfail.
  destruct (db_Begin_spec _ _ _ Hb) as (Hc1 & _ & Hh1 & Htx1 & _).
  specialize (Htx1 eq_refl).
  destruct (upLoop_continue _ _ _ 0 _ _ _ Hpre Htx1)
    as (_ & Hck & _ & _ & new0 & Hhk & Hnew0).
  pose proof (upStep_spec (sortMigrations sort_Sort migs) n (Z.of_nat k) wk) as Hs.
  destruct (upStep env _ n (Z.of_nat k) wk) as [[|err] w'|msg w'] eqn:Hstep.
  - exfalso. by eapply upFails_not_continue.
  - destruct Hs as (m' & rb & _ & _ & Hc & Htx & _ & Hcase).
    assert (Hquiet : ∀ r, (CallCommit, r) ∉ new0).
    { intros r Hin. rewrite Forall_forall in Hnew0.
      by destruct (Hnew0 _ Hin) as [_ ?]. }
    destruct Hcase as [(e & ? & _ & -> & Hh)|(e & ? & ? & _ & _ & -> & Hh)].
    + eexists _, w', rb, ((CallUp (dbName m'), Some e) :: new0 ++ [(CallBegin, None)]).
      split; [by eapply migrateUpN_returns|].
      split; [congruence|]. split; [done|]. split.
      * rewrite Hh, Hhk, Hh1. cbn. by rewrite <- app_assoc.
      * intros r. rewrite not_elem_of_cons, not_elem_of_app, not_elem_of_cons.
        split; [done|]. split; [done|]. split; [done|]. apply not_elem_of_nil.
    + eexists _, w', rb, ((CallInsert (dbName m'), Some e)
                          :: (CallUp (dbName m'), None) :: new0 ++ [(CallBegin, None)]).
      split; [by eapply migrateUpN_returns|].
      split; [congruence|]. split; [done|]. split.
      * rewrite Hh, Hhk, Hh1. cbn. by rewrite <- app_assoc.
      * intros r. rewrite !not_elem_of_cons, not_elem_of_app, not_elem_of_cons.
        split; [done|]. split; [done|]. split; [done|]. split; [done|].
        apply not_elem_of_nil.
  - destruct Hs as [_ [?|Hn]]; [lia|]. rewrite Nat2Z.id in Hn. congruence.
Qed.


(** All or nothing: the up-runner commits the first [n] increments of the
    sorted list together with their [n] tracking rows, or leaves the
    committed store as it was. *)
Lemma migrateUpN_result migs n w :
  let sorted := sortMigrations sort_Sort migs in
  match migrateUpN env sort_Sort migs n w with
  | Done None w' =>
      let ms := take (Z.to_nat n) sorted in
      length ms = Z.to_nat n
      ∧ committed w' =
          {| schema := ups ms (schema (committed w));
             tracking := (λ rows, rows ++ (dbName <$> ms)) <$> tracking (committed w) |}
      ∧ tx w' = None
  | Done (Some e) w' => committed w' = committed w
  | Panic _ w' => committed w' = committed w ∧ (length sorted < Z.to_nat n)%nat
  end.
Proof.
  intros sorted.
  destruct (db_Begin env w) as [[e|] w1|] eqn:Hb; [| |by unfold db_Begin in Hb; destruct (outcome _ _ _ _)].
  { unfold migrateUpN. munfold. rewrite Hb.
    by destruct (db_Begin_spec _ _ _ Hb) as (? & _). }
  rewrite (migrateUpN_begun _ _ _ _ Hb). fold sorted.
  destruct (db_Begin_spec _ _ _ Hb) as (Hc1 & _ & _ & Htx1 & _).
  specialize (Htx1 eq_refl).
  destruct (upLoop_frame sorted n (Z.to_nat n) 0 w1) as [Hc HR].
  destruct (upLoop env sorted n (Z.to_nat n) 0 w1) as [[|err] wl|msg wl] eqn:Hloop.
  - destruct (upLoop_continue _ _ _ 0 _ _ _ Hloop Htx1) as (Hlen & _ & Htxl & _).
    rewrite drop_0 in Hlen, Htxl.
    destruct (tx_Commit_spec _ _ Htxl) as (e & w' & -> & Htx' & _ & _ & Hok & Hfail).
    destruct e as [e|].
    + rewrite Hfail by done. cbn in Hc. congruence.
    + by rewrite Hok by done.
  - destruct (HR _ _ eq_refl) as ([e ->] & _). cbn in Hc. congruence.
  - cbn in Hc. split; [congruence|].
    apply (upLoop_panic _ _ _ 0) in Hloop. lia.
Qed.

Lemma sortMigrations_perm migs : sortMigrations sort_Sort migs ≡ₚ migs.
Proof. apply sort_Sort_perm. Qed.

Lemma sortMigrations_length migs :
  length (sortMigrations sort_Sort migs) = length migs.
Proof. by rewrite sortMigrations_perm. Qed.

(** With [n] the length of the list, as [Migrate] calls it, the up-runner
    cannot panic, and what it commits is every increment and every key. *)
Lemma migrateUpN_all migs w :
  let sorted := sortMigrations sort_Sort migs in
  match migrateUpN env sort_Sort migs (Len migs) w with
  | Done None w' =>
      committed w' =
        {| schema := ups sorted (schema (committed w));
           tracking := (λ rows, rows ++ (dbName <$> sorted)) <$> tracking (committed w) |}
      ∧ tx w' = None
  | Done (Some e) w' => committed w' = committed w
  | Panic _ _ => False
  end.
Proof.
  intros sorted. pose proof (migrateUpN_result migs (Len migs) w) as H.
  fold sorted in H. cbn zeta in H. unfold Len in *. rewrite Nat2Z.id in H.
  pose proof (sortMigrations_length migs) as Hlen. fold sorted in Hlen.
  destruct (migrateUpN _ _ _ _ _) as [[e|] w'|msg w']; [done| |lia].
  rewrite <- Hlen, firstn_all in H. by destruct H as (_ & ? & ?).
Qed.


(** ** The orchestration *)

Lemma checkMigrationTable_spec w :
  ∃ e w0,
    checkMigrationTable env w = Done e w0
    ∧ tx w0 = tx w ∧ sink w0 = sink w
    ∧ history w0 = (CallCreateTable, e) :: history w
    ∧ (is_Some e → committed w0 = committed w)
    ∧ (e = None → committed w0 = ensured (committed w)).
Proof.
  unfold checkMigrationTable, db_Exec_create, outcome.
  case_env He; eexists _, _; (split; [done|]); cbn; repeat split; try done;
    by intros [? [=]].
Qed.

(** [Migrate] is the sequence of its three parts. *)
Lemma Migrate_cases migs w :
  ∃ e0 w0,
    checkMigrationTable env w = Done e0 w0
    ∧ (is_Some e0 → Migrate env sort_Sort migs w = Done e0 w0)
    ∧ (e0 = None →
       ∃ toRun err wr,
         needsToRun env migs w0 = Done (toRun, err) wr
         ∧ (is_Some err → Migrate env sort_Sort migs w = Done err wr)
         ∧ (err = None →
            Migrate env sort_Sort migs w =
            migrateUpN env sort_Sort toRun (Len toRun)
              (with_sink (runStart toRun :: sink wr) wr))).
Proof.
  destruct (checkMigrationTable_spec w) as (e0 & w0 & Hcreate & _).
  exists e0, w0. split; [done|]. unfold Migrate. munfold. rewrite Hcreate. split.
  - by intros [e ->].
  - intros ->.
    destruct (needsToRun_frame migs w0) as (toRun & err & wr & new & Hrun & _).
    exists toRun, err, wr. rewrite Hrun. split; [done|]. split.
    + by intros [e ->].
    + by intros ->.
Qed.

Lemma ensured_tracked (s : Store Schema) rows :
  tracking s = Some rows → ensured s = s.
Proof. destruct s as [sch t]. cbn. by intros ->. Qed.

(** A run that fails leaves the schema and the rows of the tracking table
    as they were (it may have created the empty table). *)
Lemma Migrate_frame migs w :
  match Migrate env sort_Sort migs w with
  | Done None _ => True
  | Done (Some _) w' | Panic _ w' =>
      committed w' = committed w ∨ committed w' = ensured (committed w)
  end.
Proof.
  destruct (Migrate_cases migs w) as (e0 & w0 & Hcreate & Hfail & Hok).
  destruct (checkMigrationTable_spec w) as (e0' & w0' & Hcreate' & _ & _ & _ & Hc1 & Hc2).
  rewrite Hcreate in Hcreate'. injection Hcreate' as <- <-.
  destruct e0 as [e0|].
  { rewrite Hfail by done. left. by apply Hc1. }
  destruct (Hok eq_refl) as (toRun & err & wr & Hrun & Hfail2 & Hok2).
  destruct (needsToRun_frame migs w0) as (? & ? & ? & new & Hrun' & Hcr & _).
  rewrite Hrun in Hrun'. injection Hrun' as <- <- <-.
  destruct err as [err|].
  { rewrite Hfail2 by done. right. rewrite Hcr. by apply Hc2. }
  rewrite Hok2 by done.
  pose proof (migrateUpN_all toRun (with_sink (runStart toRun :: sink wr) wr)) as H.
  destruct (migrateUpN _ _ _ _ _) as [[e|] w'|msg w']; [|done..].
  right. rewrite H. cbn. rewrite Hcr. by apply Hc2.
Qed.

(** After a run that succeeds every candidate's key is a row of the
    tracking table. *)
Lemma Migrate_tracks migs w w1 :
  Migrate env sort_Sort migs w = Done None w1 →
  ∃ rows1, tracking (committed w1) = Some rows1 ∧ ∀ c, c ∈ migs → dbName c ∈ rows1.
Proof.
  intros HM.
  destruct (Migrate_cases migs w) as (e0 & w0 & Hcreate & Hfail & Hok).
  destruct (checkMigrationTable_spec w) as (e0' & w0' & Hcreate' & _ & _ & _ & _ & Hc2).
  rewrite Hcreate in Hcreate'. injection Hcreate' as <- <-.
  destruct e0 as [e0|]; [by rewrite Hfail in HM|].
  destruct (Hok eq_refl) as (toRun & err & wr & Hrun & Hfail2 & Hok2).
  destruct (needsToRun_frame migs w0) as (? & ? & ? & new & Hrun' & Hcr & _).
  rewrite Hrun in Hrun'. injection Hrun' as <- <- <-.
  destruct err as [err|]; [by rewrite Hfail2 in HM|].
  rewrite Hok2 in HM by done.
  pose proof (migrateUpN_all toRun (with_sink (runStart toRun :: sink wr) wr)) as H.
  rewrite HM in H. destruct H as [H _]. cbn in H. rewrite Hcr, Hc2 in H by done.
  cbn in H. eexists. split; [by rewrite H|].
  destruct (needsToRun_sound _ _ _ _ Hrun) as (rows & A & Hrows & HA & ->).
  rewrite Hc2 in Hrows by done. cbn in Hrows. injection Hrows as <-.
  intros c Hc. apply elem_of_app.
  destruct (A !! dbName c) as [b|] eqn:HAc.
  - left. destruct (HA (dbName c)) as [?|Hempty]; [by eexists|done|].
    by apply dbName_not_empty in Hempty.
  - right. apply list_elem_of_fmap. exists c. split; [done|].
    rewrite sortMigrations_perm. apply list_elem_of_filter. done.
Qed.


Lemma readEvent_quiet (new : History) :
  Forall readEvent new → Forall (λ ev, ¬ applies ev.1) new.
Proof.
  intros H. eapply Forall_impl; [exact H|]. intros [c r] Hr.
  unfold readEvent in Hr. cbn in *.
  by destruct Hr as [-> | [-> | [-> | ->]]]; intros [].
Qed.

(** With nothing to run the up-runner begins and commits an empty
    transaction. *)
Ltac solve_quiet :=
  repeat (apply Forall_cons; split; [cbn; tauto|]); by apply Forall_nil.

Lemma migrateUpN_nil w :
  ∃ e w' new,
    migrateUpN env sort_Sort [] 0 w = Done e w'
    ∧ committed w' = committed w ∧ sink w' = sink w
    ∧ history w' = new ++ history w
    ∧ Forall (λ ev, ¬ applies ev.1) new.
Proof.
  unfold migrateUpN. munfold.
  destruct (db_Begin env w) as [[e|] w1|] eqn:Hb;
    [| |by unfold db_Begin in Hb; destruct (outcome _ _ _ _)];
    destruct (db_Begin_spec _ _ _ Hb) as (Hc & Hs & Hh & Hopen & _).
  - exists (Some e), w1, [(CallBegin, Some e)]. do 3 (split; [done|]).
    split; [done|]. solve_quiet.
  - specialize (Hopen eq_refl). change (Z.to_nat 0) with 0%nat.
    cbn [upLoop]. munfold. cbn match.
    destruct (tx_Commit_spec _ _ Hopen) as (e & w' & -> & _ & Hs' & Hh' & Hok & Hfail).
    exists e, w', [(CallCommit, e); (CallBegin, None)]. split; [done|].
    split; [|split; [congruence|split; [by rewrite Hh', Hh|solve_quiet]]].
    destruct e as [e|]; [rewrite Hfail by done|rewrite Hok by done]; done.
Qed.

(** When every candidate is tracked and the read is clean, [Migrate]
    applies nothing. *)
Lemma Migrate_nothing migs w rows :
  tracking (committed w) = Some rows →
  (∀ c, c ∈ migs → dbName c ∈ rows) →
  readsClean env (history w) →
  ∃ e w' new,
    Migrate env sort_Sort migs w = Done e w'
    ∧ committed w' = committed w
    ∧ history w' = new ++ history w
    ∧ Forall (λ ev, ¬ applies ev.1) new.
Proof.
  intros Hrows Hall Hclean.
  destruct (Migrate_cases migs w) as (e0 & w0 & Hcreate & Hfail & Hok).
  destruct (checkMigrationTable_spec w)
    as (e0' & w0' & Hcreate' & Htx0 & _ & Hh0 & Hc1 & Hc2).
  rewrite Hcreate in Hcreate'. injection Hcreate' as <- <-.
  destruct e0 as [e0|].
  { exists (Some e0), w0, [(CallCreateTable, Some e0)]. rewrite Hfail by done.
    split; [done|]. split; [by apply Hc1|]. split; [done|]. solve_quiet. }
  specialize (Hc2 eq_refl). rewrite (ensured_tracked _ _ Hrows) in Hc2.
  destruct (Hok eq_refl) as (toRun & err & wr & Hrun & Hfail2 & Hok2).
  destruct (needsToRun_frame migs w0)
    as (? & ? & ? & newr & Hrun' & Hcr & Htxr & _ & Hhr & Hnewr & _).
  rewrite Hrun in Hrun'. injection Hrun' as <- <- <-.
  apply readEvent_quiet in Hnewr.
  destruct err as [err|].
  { exists (Some err), wr, (newr ++ [(CallCreateTable, None)]). rewrite Hfail2 by done.
    split; [done|]. split; [congruence|]. split; [by rewrite Hhr, Hh0, <- app_assoc|].
    apply Forall_app. split; [done|]. solve_quiet. }
  rewrite Hok2 by done.
  assert (toRun = []) as ->.
  { assert (Hsuf : history w `suffix_of` history w0)
      by (rewrite Hh0; by apply suffix_cons_r).
    rewrite (needsToRun_clean _ _ _ _ _ Hclean Hsuf Hrun).
    unfold unapplied. rewrite Hc2, Hrows. cbn.
    apply filter_none. intros c Hc Hn. by apply Hn, Hall. }
  change (Len (@nil (Migration Schema))) with 0.
  destruct (migrateUpN_nil (with_sink (@runStart Schema [] :: sink wr) wr))
    as (e & w' & new & -> & Hc' & _ & Hh' & Hnew).
  exists e, w', (new ++ newr ++ [(CallCreateTable, None)]). split; [done|].
  split; [cbn in Hc'; congruence|]. split.
  - rewrite Hh'. cbn. by rewrite Hhr, Hh0, <- !app_assoc.
  - repeat (apply Forall_app; split; [done|]). solve_quiet.
Qed.


(** Idempotence when the reads go through.  After a run of [Migrate]
    that returns no error, a second run with the same candidates, reading
    the tracking table cleanly, calls no increment, writes no tracking row
    and leaves the committed store as it is.  After a run that returns an
    error the schema and the rows are what they were before it, so the
    unapplied candidates are the same, and that is the list the
    reconciliation of a new run returns. *)
Lemma Migrate_twice migs w e1 w1 :
  Migrate env sort_Sort migs w = Done e1 w1 →
  (e1 = None → readsClean env (history w1) →
     ∃ e2 w2 new,
       Migrate env sort_Sort migs w1 = Done e2 w2
       ∧ committed w2 = committed w1
       ∧ history w2 = new ++ history w1
       ∧ Forall (λ ev, ¬ applies ev.1) new)
  ∧ (is_Some e1 →
       schema (committed w1) = schema (committed w)
       ∧ default [] (tracking (committed w1)) = default [] (tracking (committed w))
       ∧ unapplied migs (committed w1) = unapplied migs (committed w)
       ∧ ∀ w1' toRun w1'',
           readsClean env (history w1) →
           checkMigrationTable env w1 = Done None w1' →
           needsToRun env migs w1' = Done (toRun, None) w1'' →
           toRun = unapplied migs (committed w)).
Proof.
  intros HM. split.
  - intros -> Hclean.
    destruct (Migrate_tracks _ _ _ HM) as (rows1 & Hrows1 & Hall).
    by apply (Migrate_nothing migs w1 rows1).
  - intros [e ->]. pose proof (Migrate_frame migs w) as HF. rewrite HM in HF.
    assert (Hun : unapplied migs (committed w1) = unapplied migs (committed w)).
    { destruct HF as [->| ->]; [done|apply unapplied_ensured]. }
    split; [by destruct HF as [->| ->]|].
    split; [destruct HF as [->| ->]; [done|cbn; by destruct (tracking _)]|].
    split; [done|].
    intros w1' toRun w1'' Hclean Hcreate Hrun.
    destruct (checkMigrationTable_spec w1) as (? & ? & Hcreate' & _ & _ & Hh & _ & Hc).
    rewrite Hcreate in Hcreate'. injection Hcreate' as <- <-.
    assert (Hsuf : history w1 `suffix_of` history w1')
      by (rewrite Hh; by apply suffix_cons_r).
    rewrite (needsToRun_clean _ _ _ _ _ Hclean Hsuf Hrun), Hc by done.
    by rewrite unapplied_ensured.
Qed.

(** C9, amended.  If the rows of the tracking table are pairwise distinct
    before [Migrate], the tracking keys of the unapplied candidates are
    pairwise distinct, and the tracking table is read cleanly, the rows
    are pairwise distinct afterwards, however the run ends. *)
Theorem Migrate_rows_distinct migs w :
  NoDup (default [] (tracking (committed w))) →
  NoDup (dbName <$> unapplied migs (committed w)) →
  readsClean env (history w) →
  NoDup (default [] (tracking (committed (after (Migrate env sort_Sort migs w))))).
Proof.
  intros Hrows Hkeys Hclean.
  pose proof (Migrate_frame migs w) as HF.
  destruct (Migrate env sort_Sort migs w) as [[e|] w'|msg w'] eqn:HM; cbn [after].
  1, 3: destruct HF as [->| ->]; [done|cbn; by destruct (tracking _)].
  clear HF.
  destruct (Migrate_cases migs w) as (e0 & w0 & Hcreate & Hfail & Hok).
  destruct (checkMigrationTable_spec w) as (e0' & w0' & Hcreate' & _ & _ & Hh0 & _ & Hc2).
  rewrite Hcreate in Hcreate'. injection Hcreate' as <- <-.
  destruct e0 as [e0|]; [by rewrite Hfail in HM|].
  destruct (Hok eq_refl) as (toRun & err & wr & Hrun & Hfail2 & Hok2).
  destruct (needsToRun_frame migs w0) as (? & ? & ? & new & Hrun' & Hcr & _).
  rewrite Hrun in Hrun'. injection Hrun' as <- <- <-.
  destruct err as [err|]; [by rewrite Hfail2 in HM|].
  rewrite Hok2 in HM by done.
  pose proof (migrateUpN_all toRun (with_sink (runStart toRun :: sink wr) wr)) as H.
  rewrite HM in H. destruct H as [H _]. cbn in H. rewrite Hcr, Hc2 in H by done.
  rewrite H. cbn.
  assert (Hsuf : history w `suffix_of` history w0)
    by (rewrite Hh0; by apply suffix_cons_r).
  rewrite (needsToRun_clean _ _ _ _ _ Hclean Hsuf Hrun), Hc2, unapplied_ensured by done.
  apply NoDup_app. split; [done|]. split.
  - intros k Hk [c [-> Hc]]%list_elem_of_fmap.
    rewrite sortMigrations_perm in Hc. unfold unapplied in Hc.
    apply list_elem_of_filter in Hc as [Hc _]. done.
  - by rewrite sortMigrations_perm.
Qed.

End WithSort.

End Properties.

Section Sorting.
Context {Schema : Type}.
Implicit Types (x y a b : Migration Schema).
Implicit Types (ml pre rpre post r : list (Migration Schema)).

(** ** [Before] is a strict weak order *)

Lemma Before_spec (t u : Time) :
  Before t u = true ↔ sec t < sec u ∨ (sec t = sec u ∧ nsec t < nsec u).
Proof.
  unfold Before. rewrite orb_true_iff, andb_true_iff, !Z.ltb_lt, Z.eqb_eq. tauto.
Qed.

Lemma Before_false (t u : Time) : Before t u = false ↔ time_le u t.
Proof.
  unfold time_le. rewrite <- not_true_iff_false, Before_spec. lia.
Qed.

Lemma time_le_trans (t u v : Time) : time_le t u → time_le u v → time_le t v.
Proof. unfold time_le. lia. Qed.

(** ** Insertion sort through [Less] and [Swap] *)

Lemma Less_lookup ml i j x y :
  ml !! i = Some x → ml !! j = Some y →
  Less ml i j = Some (Before (Date x) (Date y)).
Proof. unfold Less. by intros -> ->. Qed.

Lemma Swap_adjacent pre x y post :
  Swap (pre ++ y :: x :: post) (S (length pre)) (length pre)
  = Some (pre ++ x :: y :: post).
Proof.
  assert (H1 : (pre ++ y :: x :: post) !! S (length pre) = Some x).
  { rewrite lookup_app_r by lia.
    by replace (S (length pre) - length pre)%nat with 1%nat by lia. }
  assert (H0 : (pre ++ y :: x :: post) !! length pre = Some y)
    by by apply list_lookup_middle.
  unfold Swap. rewrite H1, H0. cbn. f_equal.
  rewrite <- (Nat.add_0_r (length pre)) at 2. rewrite insert_app_r. cbn.
  rewrite <- (Nat.add_1_r (length pre)), insert_app_r. done.
Qed.

Lemma sift_insr rpre x post :
  sift (reverse rpre ++ x :: post) (length rpre)
  = Some (reverse (insr x rpre) ++ post).
Proof.
  revert post. induction rpre as [|y r IH]; intros post; [done|].
  cbn [length sift insr]. rewrite reverse_cons, <- app_assoc. cbn [app].
  assert (Hlen : length (reverse r) = length r) by apply length_reverse.
  rewrite (Less_lookup _ _ _ x y).
  2: { rewrite lookup_app_r by lia. by replace (S (length r) - length (reverse r))%nat with 1%nat by lia. }
  2: { rewrite <- Hlen. by apply list_lookup_middle. }
  cbn [mbind option_bind]. destruct (Before (Date x) (Date y)).
  - rewrite <- Hlen, Swap_adjacent. cbn [mbind option_bind]. rewrite Hlen, IH.
    by rewrite reverse_cons, <- app_assoc.
  - by rewrite !reverse_cons, <- !app_assoc.
Qed.


Lemma passes_insr rpre rest :
  passes (reverse rpre ++ rest) (length rpre) (length rest)
  = Some (reverse (foldl (λ acc x, insr x acc) rpre rest)).
Proof.
  revert rpre. induction rest as [|x rest IH]; intros rpre.
  - cbn. by rewrite app_nil_r.
  - cbn [length passes foldl]. rewrite sift_insr. cbn [mbind option_bind].
    assert (Hlen : length (insr x rpre) = S (length rpre)).
    { clear. induction rpre as [|y r IHr]; [done|]. cbn.
      destruct (Before _ _); cbn; by rewrite ?IHr. }
    rewrite <- Hlen. apply IH.
Qed.

Lemma insertionSort_insr ml :
  insertionSort ml = Some (reverse (foldl (λ acc x, insr x acc) [] ml)).
Proof.
  unfold insertionSort. destruct ml as [|x rest]; [done|].
  cbn [length foldl insr]. replace (S (length rest) - 1)%nat with (length rest) by lia.
  apply (passes_insr [x] rest).
Qed.

Lemma insr_perm x rpre : insr x rpre ≡ₚ x :: rpre.
Proof.
  induction rpre as [|y r IH]; [done|]. cbn.
  destruct (Before _ _); [|done]. rewrite IH. apply Permutation_swap.
Qed.

(** [sortShort] only rearranges. *)
Lemma sortShort_perm ml : sortShort ml ≡ₚ ml.
Proof.
  unfold sortShort. rewrite insertionSort_insr. cbn [default].
  rewrite reverse_Permutation.
  enough (H : ∀ acc, foldl (λ acc x, insr x acc) acc ml ≡ₚ ml ++ acc).
  { by rewrite H, app_nil_r. }
  induction ml as [|x ml IH]; intros acc; [done|].
  cbn [foldl]. rewrite IH, insr_perm. cbn. by rewrite Permutation_middle.
Qed.

Lemma insr_descending x rpre : descending rpre → descending (insr x rpre).
Proof.
  unfold descending. induction rpre as [|y r IH]; intros Hr.
  - cbn. by repeat constructor.
  - apply StronglySorted_inv in Hr as [Hr Hy]. cbn.
    destruct (Before (Date x) (Date y)) eqn:E.
    + constructor; [by apply IH|].
      rewrite insr_perm. constructor; [|done].
      apply Before_spec in E. unfold time_le. lia.
    + apply Before_false in E. apply SSorted_cons; [by apply SSorted_cons|].
      constructor; [done|].
      eapply Forall_impl; [exact Hy|]. intros z Hz.
      exact (time_le_trans _ _ _ Hz E).
Qed.

Lemma foldl_insr_descending ml acc :
  descending acc → descending (foldl (λ acc x, insr x acc) acc ml).
Proof.
  revert acc. induction ml as [|x ml IH]; intros acc Hacc; [done|].
  cbn. by apply IH, insr_descending.
Qed.

Lemma descending_lookup r i j a b :
  descending r → (i < j)%nat → r !! i = Some a → r !! j = Some b →
  time_le (Date b) (Date a).
Proof.
  unfold descending. intros Hr. revert i j. induction Hr as [|c r Hr IH Hc]; intros i j Hij.
  - by rewrite lookup_nil.
  - destruct i as [|i], j as [|j]; try lia; cbn.
    + intros [= ->] Hb. rewrite Forall_forall in Hc. apply Hc.
      by eapply list_elem_of_lookup_2.
    + apply IH. lia.
Qed.

(** [sortShort] sorts: further on in the slice nothing is [Less]. *)
Lemma sortShort_sorted ml i j :
  (i < j < length ml)%nat → Less (sortShort ml) j i = Some false.
Proof.
  intros Hij. unfold sortShort. rewrite insertionSort_insr. cbn [default].
  set (r := foldl _ [] ml).
  assert (Hlen : length r = length ml).
  { pose proof (sortShort_perm ml) as H. unfold sortShort in H.
    rewrite insertionSort_insr in H. cbn [default] in H. fold r in H.
    rewrite <- (length_reverse r). by apply Permutation_length. }
  assert (Hr : descending r) by (apply foldl_insr_descending; constructor).
  destruct (lookup_lt_is_Some_2 (reverse r) i) as [a Ha]; [rewrite length_reverse; lia|].
  destruct (lookup_lt_is_Some_2 (reverse r) j) as [b Hb]; [rewrite length_reverse; lia|].
  rewrite (Less_lookup _ _ _ b a) by done. f_equal. apply Before_false.
  apply reverse_lookup_Some in Ha as [Ha _], Hb as [Hb _].
  eapply (descending_lookup r (length r - S j) (length r - S i)); [done|lia|done..].
Qed.

End Sorting.

Section SliceProperties.
Context {Schema : Type}.
Variable sort_Sort : MigrationList Schema → MigrationList Schema.
Hypothesis sort_Sort_perm : ∀ ml, sort_Sort ml ≡ₚ ml.
Hypothesis sort_Sort_sorted :
  ∀ ml i j, (i < j < length ml)%nat → Less (sort_Sort ml) j i = Some false.

Lemma perm_short {A} (l ml : list A) : (length ml ≤ 1)%nat → l ≡ₚ ml → l = ml.
Proof.
  destruct ml as [|x [|y ml]]; cbn; intros Hlen Hp; [| |lia].
  - by apply Permutation_nil_r.
  - by apply Permutation_singleton_r.
Qed.

Lemma mapM_id_Some {A} (cs : list (option A)) (l : list A) :
  mapM id cs = Some l ↔ cs = Some <$> l.
Proof.
  split.
  - intros H. symmetry. apply (mapM_fmap_Some_inv id Some); [done|].
    by intros ?? [= ->].
  - intros ->. by apply mapM_fmap_Some.
Qed.

Lemma elems_cells (h : gmap nat (list (option (Migration Schema)))) s ml :
  SliceModel.elems h s = Some ml ↔ SliceModel.cells h s = Some (Some <$> ml).
Proof.
  unfold SliceModel.elems. destruct (SliceModel.cells h s) as [cs|]; cbn.
  - rewrite mapM_id_Some. split; [by intros ->|by intros [= ->]].
  - split; intros [=].
Qed.

Lemma cells_whole (h : gmap nat (list (option (Migration Schema)))) p cs :
  h !! p = Some cs →
  SliceModel.cells h {| SliceModel.ptr := p; SliceModel.off := 0; SliceModel.len := length cs |} = Some cs.
Proof.
  intros Hp. unfold SliceModel.cells. cbn. rewrite Hp. cbn.
  rewrite decide_True by done. by rewrite drop_0, firstn_all.
Qed.

Lemma store_whole (h : gmap nat (list (option (Migration Schema)))) p old cs :
  length old = length cs →
  SliceModel.store (<[p := old]> h) {| SliceModel.ptr := p; SliceModel.off := 0; SliceModel.len := length cs |} cs = <[p := cs]> h.
Proof.
  intros Hlen. unfold SliceModel.store. cbn. rewrite alter_insert_eq. cbn.
  by rewrite <- Hlen, drop_all, app_nil_r.
Qed.

Lemma cells_insert_ne (h : gmap nat (list (option (Migration Schema)))) p cs s :
  SliceModel.ptr s ≠ p → SliceModel.cells (<[p := cs]> h) s = SliceModel.cells h s.
Proof. intros Hne. unfold SliceModel.cells. by rewrite lookup_insert_ne. Qed.

(** What [sortMigrations] does to the store: one fresh array holding the
    sorted contents, everything else as it was. *)
Lemma sortMigrations_store (h : gmap nat (list (option (Migration Schema)))) migs ml :
  SliceModel.elems h migs = Some ml →
  SliceModel.sortMigrations sort_Sort h migs
  = Some (<[fresh (dom h) := Some <$> sort_Sort ml]> h,
          {| SliceModel.ptr := fresh (dom h); SliceModel.off := 0; SliceModel.len := SliceModel.len migs |})
  ∧ length ml = SliceModel.len migs ∧ SliceModel.ptr migs ≠ fresh (dom h).
Proof.
  intros Hml. apply elems_cells in Hml.
  assert (Hlen : length ml = SliceModel.len migs).
  { unfold SliceModel.cells in Hml. destruct (h !! SliceModel.ptr migs) as [arr|]; [|done]. cbn in Hml.
    case_decide; [|done]. injection Hml as Hml.
    apply (f_equal length) in Hml. rewrite length_take, length_drop, length_fmap in Hml. lia. }
  assert (Hne : SliceModel.ptr migs ≠ fresh (dom h)).
  { intros Heq. pose proof (is_fresh (dom h)) as Hf. rewrite <- Heq in Hf.
    apply not_elem_of_dom in Hf. unfold SliceModel.cells in Hml. by rewrite Hf in Hml. }
  split; [|done]. unfold SliceModel.sortMigrations, SliceModel.make, SliceModel.copy. cbn zeta.
  set (p := fresh (dom h)) in *.
  rewrite cells_insert_ne, Hml by done. cbn [mbind option_bind SliceModel.len].
  rewrite Nat.min_id, <- Hlen, <- (length_fmap Some ml), firstn_all.
  rewrite store_whole by by rewrite length_replicate.
  unfold SliceModel.Sort. cbn [SliceModel.len]. rewrite length_fmap. case_decide as Hshort.
  - cbn. by rewrite (perm_short (sort_Sort ml) ml).
  - assert (Hel : SliceModel.elems (<[p := Some <$> ml]> h)
                    {| SliceModel.ptr := p; SliceModel.off := 0; SliceModel.len := length ml |} = Some ml).
    { apply elems_cells. rewrite <- (length_fmap Some ml).
      apply cells_whole, lookup_insert_eq. }
    rewrite Hel. cbn [mbind option_bind].
    rewrite <- (Permutation_length (sort_Sort_perm ml)), <- (length_fmap Some (sort_Sort ml)).
    rewrite store_whole by by rewrite !length_fmap, sort_Sort_perm.
    by rewrite length_fmap.
Qed.


(** C5. [sortMigrations] returns a slice whose dates never decrease, and
    strictly increase when the dates of the units are pairwise distinct;
    it holds the units it was given; it is a new array, and every array
    that existed before the call, the caller's among them, is unchanged. *)
Theorem sortMigrations_sorted_copy
    (h : gmap nat (list (option (Migration Schema)))) migs ml :
  SliceModel.elems h migs = Some ml →
  ∃ h' sorted out,
    SliceModel.sortMigrations sort_Sort h migs = Some (h', sorted)
    ∧ SliceModel.elems h' sorted = Some out
    ∧ out = sortMigrations sort_Sort ml
    ∧ out ≡ₚ ml
    ∧ (∀ i j a b, (i < j)%nat → out !! i = Some a → out !! j = Some b →
         time_le (Date a) (Date b))
    ∧ (NoDup (Date <$> ml) →
       ∀ i j a b, (i < j)%nat → out !! i = Some a → out !! j = Some b →
         Before (Date a) (Date b) = true)
    ∧ (∀ p, p ∈ dom h → h' !! p = h !! p)
    ∧ SliceModel.elems h' migs = Some ml.
Proof.
  intros Hml. destruct (sortMigrations_store h migs ml Hml) as (Hrun & Hlen & Hne).
  set (p := fresh (dom h)) in *.
  assert (Hle : ∀ i j a b, (i < j)%nat →
            sort_Sort ml !! i = Some a → sort_Sort ml !! j = Some b →
            time_le (Date a) (Date b)).
  { intros i j a b Hij Ha Hb. apply Before_false.
    assert (Hj : (j < length ml)%nat).
    { rewrite <- (Permutation_length (sort_Sort_perm ml)). by eapply lookup_lt_Some. }
    pose proof (sort_Sort_sorted ml i j (conj Hij Hj)) as HL.
    rewrite (Less_lookup _ _ _ b a) in HL by done. by injection HL. }
  eexists _, _, (sort_Sort ml). split; [exact Hrun|].
  split; [|split; [done|split; [done|split; [done|split; [|split]]]]].
  - apply elems_cells. rewrite <- Hlen, <- (Permutation_length (sort_Sort_perm ml)).
    rewrite <- (length_fmap Some (sort_Sort ml)). apply cells_whole, lookup_insert_eq.
  - intros Hnd i j a b Hij Ha Hb. apply Before_spec.
    pose proof (Hle i j a b Hij Ha Hb) as Hab.
    assert (Hdiff : Date a ≠ Date b).
    { intros Heq. rewrite <- sort_Sort_perm in Hnd.
      assert (i = j); [|lia].
      apply (NoDup_lookup _ i j (Date a) Hnd); rewrite list_lookup_fmap.
      - by rewrite Ha.
      - by rewrite Hb, Heq. }
    unfold time_le in Hab. destruct (Date a) as [s1 n1], (Date b) as [s2 n2].
    cbn in *. destruct (decide (n1 = n2)) as [->|]; [|lia].
    destruct Hab as [?|[-> _]]; [by left|done].
  - intros q Hq. apply lookup_insert_ne. intros <-. by apply (is_fresh (dom h)).
  - apply elems_cells. rewrite cells_insert_ne by done. by apply elems_cells.
Qed.

End SliceProperties.

Section Claims.

Context {Schema : Type}.
Implicit Types (mig m : Migration Schema) (migs ml : MigrationList Schema).
Implicit Types (w : World Schema).
Variable env : Oracle.
Variable sort_Sort : MigrationList Schema → MigrationList Schema.
Hypothesis sort_Sort_perm : ∀ ml, sort_Sort ml ≡ₚ ml.


(** C7, amended.  When the steps before it have gone through, the unit's
    increment succeeds and the write of its tracking row fails with [e]
    (the INSERT on up, the DELETE on down), the runner rolls back and
    returns [e] itself, not wrapped; the committed store is unchanged. *)
Theorem write_failure_rolled_back_unwrapped migs n (k : nat) w w1 :
  let sorted := sortMigrations sort_Sort migs in
  Z.of_nat k < n →
  db_Begin env w = Done None w1 →
  (∀ wk m wk1 e wk2,
     upLoop env sorted n k 0 w1 = Done Continue wk →
     sorted !! k = Some m →
     tx_increment (CallUp (dbName m)) (Up m) wk = Done None wk1 →
     tx_Exec_insert env (dbName m) wk1 = Done (Some e) wk2 →
     ∃ w' rb h,
       migrateUpN env sort_Sort migs n w = Done (Some e) w'
       ∧ committed w' = committed w ∧ tx w' = None
       ∧ history w' = (CallRollback, rb) :: (CallInsert (dbName m), Some e) :: h)
  ∧ (∀ wk m wk1 e wk2,
     n < 2 ^ 63 → Len sorted < 2 ^ 63 → (k < length sorted)%nat →
     downLoop env sorted n (Len sorted - 1 - Z.of_nat k) (length sorted) w1
       = Done Continue wk →
     sorted !! (length sorted - 1 - k)%nat = Some m →
     tx_increment (CallDown (dbName m)) (Down m) wk = Done None wk1 →
     tx_Exec_delete env (dbName m) wk1 = Done (Some e) wk2 →
     ∃ w' rb h,
       migrateDownN env sort_Sort migs n w = Done (Some e) w'
       ∧ committed w' = committed w ∧ tx w' = None
       ∧ history w' = (CallRollback, rb) :: (CallDelete (dbName m), Some e) :: h).
Proof.
  intros sorted Hk Hb.
  destruct (db_Begin_spec env _ _ _ Hb) as (Hc1 & _ & _ & _ & _).
  split.
  - intros wk m wk1 e wk2 Hpre Hm Hinc Hins.
    pose proof (upStep_spec env sorted n (Z.of_nat k) wk) as Hs.
    destruct (upLoop_frame env sorted n k 0 w1) as [Hck _]. rewrite Hpre in Hck.
    destruct (upStep env sorted n (Z.of_nat k) wk) as [[|err] w'|msg w'] eqn:Hstep.
    + exfalso. eapply (upFails_not_continue env); [exact Hm| |exact Hstep].
      right. by exists wk1, e, wk2.
    + destruct Hs as (m' & rb & _ & Hm' & Hc & Htx & _ & Hcase).
      rewrite Nat2Z.id in Hm'. fold sorted in Hm'. rewrite Hm in Hm'. injection Hm' as <-.
      destruct Hcase as [(e' & ? & Hinc' & _)|(e' & ? & ? & Hinc' & Hins' & -> & Hh)];
        [congruence|].
      rewrite Hinc in Hinc'. injection Hinc' as <-.
      rewrite Hins in Hins'. injection Hins' as <- <-.
      exists w', rb, ((CallUp (dbName m), None) :: history wk).
      split; [by eapply (migrateUpN_returns env)|]. cbn in Hck.
      split; [congruence|]. done.
    + destruct Hs as [_ [?|Hn]]; [lia|]. rewrite Nat2Z.id in Hn.
      fold sorted in Hn. congruence.
  - intros wk m wk1 e wk2 Hn Hlen Hklen Hpre Hm Hinc Hdel.
    set (i := Len sorted - 1 - Z.of_nat k) in *.
    assert (Hi : Z.to_nat i = (length sorted - 1 - k)%nat) by (unfold i, Len; lia).
    pose proof (downStep_spec env sorted n i wk) as Hs.
    destruct (downLoop_frame env sorted n i (length sorted) w1) as [Hck _].
    rewrite Hpre in Hck.
    destruct (downStep env sorted n i wk) as [[|err] w'|msg w'] eqn:Hstep.
    + destruct Hs as (m' & s & rows & _ & Hm' & _ & _ & _ & (v1 & v2 & Hinc' & Hdel') & _).
      rewrite Hi, Hm in Hm'. injection Hm' as <-.
      rewrite Hinc in Hinc'. injection Hinc' as <-. congruence.
    + destruct Hs as (m' & rb & _ & Hm' & Hc & Htx & _ & Hcase).
      rewrite Hi, Hm in Hm'. injection Hm' as <-.
      destruct Hcase as [(e' & ? & Hinc' & _)|(e' & ? & ? & Hinc' & Hdel' & -> & Hh)];
        [congruence|].
      rewrite Hinc in Hinc'. injection Hinc' as <-.
      rewrite Hdel in Hdel'. injection Hdel' as <- <-.
      exists w', rb, ((CallDown (dbName m), None) :: history wk).
      split; [by eapply (migrateDownN_returns env sort_Sort migs n k)|]. cbn in Hck.
      split; [congruence|]. done.
    + destruct Hs as [_ [?|Hnone]]; [unfold i, Len in *; lia|].
      rewrite Hi in Hnone. congruence.
Qed.

(** C10, amended.  The runners index the sorted list without a bounds
    check.  The up-runner is free of out-of-range access whenever
    [n <= len], the down-runner whenever [0 <= n <= len]; [Migrate] passes
    [n = len(toRun)] and never panics.  With [n > len] either runner
    panics once the transaction has begun and every unit of the list has
    gone through. *)
Theorem runners_bounds migs n w :
  let sorted := sortMigrations sort_Sort migs in
  (n ≤ Len migs → ∃ e w', migrateUpN env sort_Sort migs n w = Done e w')
  ∧ (0 ≤ n ≤ Len migs → Len migs < 2 ^ 63 →
     ∃ e w', migrateDownN env sort_Sort migs n w = Done e w')
  ∧ (∃ e w', Migrate env sort_Sort migs w = Done e w')
  ∧ (Len migs < n →
     ∀ w1 wl, db_Begin env w = Done None w1 →
       upLoop env sorted n (length sorted) 0 w1 = Done Continue wl →
       ∃ msg, migrateUpN env sort_Sort migs n w = Panic msg wl)
  ∧ (Len migs < n < 2 ^ 63 →
     ∀ w1 wl, db_Begin env w = Done None w1 →
       downLoop env sorted n (-1) (length sorted) w1 = Done Continue wl →
       ∃ msg, migrateDownN env sort_Sort migs n w = Panic msg wl).
Proof.
  intros sorted.
  pose proof (sortMigrations_length sort_Sort sort_Sort_perm migs) as Hlen.
  fold sorted in Hlen.
  split; [|split; [|split; [|split]]].
  - intros Hn. pose proof (migrateUpN_result env sort_Sort migs n w) as H.
    destruct (migrateUpN _ _ _ _ _) as [e w'|msg w']; [by eauto|].
    cbn zeta in H. fold sorted in H. unfold Len in Hn. lia.
  - intros Hn Hbig.
    destruct (db_Begin env w) as [[e|] w1|] eqn:Hb;
      [| |by unfold db_Begin in Hb; destruct (outcome _ _ _ _)].
    { unfold migrateDownN, mbind, M_bind, mret, M_ret. rewrite Hb. eauto. }
    rewrite (migrateDownN_begun env sort_Sort _ _ _ _ Hb). cbn zeta. fold sorted.
    destruct (downLoop env sorted n _ (length sorted) w1) as [[|err] wl|msg wl] eqn:Hloop.
    + destruct (tx wl) as [s|] eqn:Htx.
      * destruct (tx_Commit_spec env _ _ Htx) as (e & w' & -> & _). eauto.
      * unfold tx_Commit. rewrite Htx. destruct (outcome _ _ _ _); eauto.
    + eauto.
    + apply downLoop_panic in Hloop; [|done].
      unfold Len in *. rewrite wrap64_id in Hloop by lia. lia.
  - destruct (Migrate_cases env sort_Sort migs w) as (e0 & w0 & Hcreate & Hfail & Hok).
    destruct e0 as [e0|]; [rewrite Hfail by done; eauto|].
    destruct (Hok eq_refl) as (toRun & err & wr & Hrun & Hfail2 & Hok2).
    destruct err as [err|]; [rewrite Hfail2 by done; eauto|].
    rewrite Hok2 by done.
    pose proof (migrateUpN_all env sort_Sort sort_Sort_perm toRun
                  (with_sink (runStart toRun :: sink wr) wr)) as H.
    destruct (migrateUpN _ _ _ _ _) as [e w'|msg w']; [eauto|done].
  - intros Hn w1 wl Hb Hall.
    rewrite (migrateUpN_begun env sort_Sort _ _ _ _ Hb). fold sorted.
    destruct (upLoop_overrun env sorted n (Z.to_nat n) w1 wl Hall) as [msg ->];
      [unfold Len in *; lia|]. by exists msg.
  - intros Hn w1 wl Hb Hall.
    rewrite (migrateDownN_begun env sort_Sort _ _ _ _ Hb). cbn zeta. fold sorted.
    destruct (downLoop_overrun env sorted n (wrap64 (Len sorted - 1 - n)) w1 wl Hall)
      as [msg ->]; [|by exists msg].
    unfold Len in *. rewrite wrap64_id by lia. lia.
Qed.

(** The progress of a run of the up-runner that commits: one notification
    per step, the i-th carrying the tracking key of the i-th unit of the
    sorted list, the position i counted from 1, and the total [n]. *)
Lemma migrateUpN_progress migs n w w' :
  migrateUpN env sort_Sort migs n w = Done None w' →
  sink w' = reverse (imap (λ j m, upNote m (Z.of_nat j) n)
                       (take (Z.to_nat n) (sortMigrations sort_Sort migs)))
            ++ sink w.
Proof.
  destruct (db_Begin env w) as [[e|] w1|] eqn:Hb;
    [| |by unfold db_Begin in Hb; destruct (outcome _ _ _ _)].
  { unfold migrateUpN, mbind, M_bind, mret, M_ret. by rewrite Hb. }
  rewrite (migrateUpN_begun env sort_Sort _ _ _ _ Hb).
  destruct (db_Begin_spec env _ _ _ Hb) as (_ & Hs1 & _ & Hopen & _).
  specialize (Hopen eq_refl).
  destruct (upLoop_frame env (sortMigrations sort_Sort migs) n (Z.to_nat n) 0 w1)
    as [_ HR].
  destruct (upLoop env _ n (Z.to_nat n) 0 w1) as [[|err] wl|msg wl] eqn:Hloop; [| |done].
  - destruct (upLoop_continue env _ _ _ 0 _ _ _ Hloop Hopen) as (_ & _ & Htxl & Hsink & _).
    destruct (tx_Commit_spec env _ _ Htxl) as (e & w'' & -> & _ & Hs' & _).
    intros [= -> ->]. rewrite Hs', Hsink, Hs1. by rewrite drop_0.
  - destruct (HR _ _ eq_refl) as ([e ->] & _). done.
Qed.

End Claims.

(** ** The runner on the sample worlds *)

(** C6. A cursor that fails on its first [Next], or a [Scan] that fails,
    does not make [needsToRun] return an error: it returns [nil] and a
    list built from the rows read so far, here with the applied unit "a"
    among the unapplied. *)
Theorem needsToRun_swallows_read_errors :
  (∃ w', needsToRun cursorBreaks [migA; migB] (withRows ["1599691380_a"])
           = Done ([migA; migB], None) w'
         ∧ history w' = [(CallClose, None);
                         (CallNext, Some "driver: bad connection");
                         (CallQuery, None)])
  ∧ (∃ w', needsToRun scanBreaks [migA; migB] (withRows ["1599691380_a"])
             = Done ([migA; migB], None) w'
           ∧ history w' = [(CallClose, None); (CallNext, None);
                           (CallScan, Some "sql: Scan error on column index 0");
                           (CallNext, None); (CallQuery, None)]).
Proof. split; eexists; split; vm_compute; reflexivity. Qed.

(** C3. A second run of [Migrate] is not idle when the cursor of its
    read fails.  The failure is dropped with the rows not yet read, every
    candidate counts as unapplied, and the run calls both increments
    again and inserts both tracking keys a second time, returning nil.
    In the same way, after a run that was rolled back, the reconciliation
    of the next run returns the applied unit "a" with "b", where the
    failed run had found "b" alone. *)
Theorem Migrate_twice_reapplies :
  let w1 := after (Migrate cursorBreaksLater sortShort [migA; migB] emptyDB) in
  let v := withRows ["1599691380_a"] in
  let v1 := after (Migrate cursorBreaksLater sortShort [migA; migBad] v) in
  (Migrate cursorBreaksLater sortShort [migA; migB] emptyDB = Done None w1
   ∧ committed w1 = {| schema := ["CREATE TABLE users"; "DROP TABLE users"];
                       tracking := Some ["1599691380_a"; "1599691380_b"] |}
   ∧ ∃ w2,
       Migrate cursorBreaksLater sortShort [migA; migB] w1 = Done None w2
       ∧ committed w2 = {| schema := ["CREATE TABLE users"; "DROP TABLE users";
                                      "CREATE TABLE users"; "DROP TABLE users"];
                           tracking := Some ["1599691380_a"; "1599691380_b";
                                             "1599691380_a"; "1599691380_b"] |}
       ∧ history w2 = [(CallCommit, None);
                       (CallInsert "1599691380_b", None);
                       (CallUp "1599691380_b", None);
                       (CallInsert "1599691380_a", None);
                       (CallUp "1599691380_a", None);
                       (CallBegin, None);
                       (CallClose, None);
                       (CallNext, Some "driver: bad connection");
                       (CallQuery, None);
                       (CallCreateTable, None)] ++ history w1)
  ∧ (Migrate cursorBreaksLater sortShort [migA; migBad] v
       = Done (Some "Failed to up 1599691380_b: something like a foreign or similar") v1
     ∧ committed v1 = committed v
     ∧ (∃ v', needsToRun cursorBreaksLater [migA; migBad]
                (after (checkMigrationTable cursorBreaksLater v))
              = Done ([migBad], None) v')
     ∧ (∃ v', needsToRun cursorBreaksLater [migA; migBad]
                (after (checkMigrationTable cursorBreaksLater v1))
              = Done ([migA; migBad], None) v')).
Proof.
  intros w1 v v1. split.
  - split; [vm_compute; reflexivity|]. split; [vm_compute; reflexivity|].
    eexists. split; [vm_compute; reflexivity|]. split; vm_compute; reflexivity.
  - split; [vm_compute; reflexivity|]. split; [vm_compute; reflexivity|].
    split; eexists; vm_compute; reflexivity.
Qed.

(** C8. The down-runner reverting the only unit of a list, [n = 1],
    reports position 0 of 1: it passes the slice index [i] where the
    up-runner passes [i+1]. *)
Theorem migrateDownN_reports_index :
  ∃ w', migrateDownN noFaults sortShort [migB] 1 (withRows ["1599691380_b"])
          = Done None w'
        ∧ sink w' = [{| fields := []; format := "Down'd %s (%d/%d)";
                        args := [AStr "1599691380_b"; AInt 0; AInt 1] |}]
        ∧ message <$> sink w' = ["Down'd 1599691380_b (0/1)"].
Proof. eexists. split; [vm_compute; reflexivity|]. split; reflexivity. Qed.

(** The up-runner on the same unit reports position 1 of 1. *)
Example migrateUpN_reports_position :
  ∃ w', migrateUpN noFaults sortShort [migB] 1 (withRows [])
          = Done None w'
        ∧ message <$> sink w' = ["Up'd 1599691380_b (1/1)"].
Proof. eexists. split; vm_compute; reflexivity. Qed.

(** C7 as stated fails: a failing INSERT comes back as the driver's error,
    without the tracking key and without the step context. *)
Lemma insert_failure_not_wrapped :
  ∃ w', migrateUpN insertFails sortShort [migA] 1 (withRows [])
          = Done (Some "disk full") w'
        ∧ Some "disk full" ≠ Some (wrapUp (dbName migA) "disk full")
        ∧ String.index 0 (dbName migA) "disk full" = None.
Proof.
  eexists. split; [vm_compute; reflexivity|]. split; [|vm_compute; reflexivity].
  by vm_compute.
Qed.

(** C9 as stated fails: two distinct units with one tracking key are both
    unapplied, both run, and the key is inserted twice. *)
Lemma Migrate_inserts_key_twice :
  NoDup (default [] (tracking (committed (withRows []))))
  ∧ migB ≠ migB' ∧ dbName migB = dbName migB'
  ∧ ∃ w', Migrate noFaults sortShort [migB; migB'] (withRows []) = Done None w'
          ∧ tracking (committed w') = Some ["1599691380_b"; "1599691380_b"]
          ∧ ¬ NoDup (default [] (tracking (committed w'))).
Proof.
  split; [apply NoDup_nil_2|]. split; [|split; [reflexivity|]].
  - intros H. apply (f_equal (λ m, (Up m []).1)) in H. by vm_compute in H.
  - eexists. split; [vm_compute; reflexivity|]. split; [reflexivity|].
    cbn. intros H. apply NoDup_cons in H as [H _]. apply H. left.
Qed.

(** C10 as stated fails: with [n = -1] the loop of the up-runner does not
    run, so there is no out-of-range access although [0 <= n] fails. *)
Lemma migrateUpN_negative_n :
  (∃ e w', migrateUpN noFaults sortShort (@nil (Migration (list string))) (-1)
             (withRows []) = Done e w')
  ∧ ¬ (0 ≤ -1 ≤ Len (@nil (Migration (list string)))).
Proof.
  split; [eexists _, _; vm_compute; reflexivity|]. unfold Len. cbn [length]. lia.
Qed.

(** ** The theorems at concrete inputs *)

Lemma migrateUpN_atomic_witness :
  ∃ e w' rb new,
    migrateUpN noFaults sortShort [migA; migBad] 2 (withRows []) = Done (Some e) w'
    ∧ committed w' = committed (withRows [])
    ∧ tx w' = None
    ∧ history w' = (CallRollback, rb) :: new ++ history (withRows [])
    ∧ ∀ r, (CallCommit, r) ∉ new.
Proof.
  apply (migrateUpN_atomic noFaults sortShort [migA; migBad] 2 1 (withRows [])
           (after (db_Begin noFaults (withRows [])))
           (after (upLoop noFaults (sortMigrations sortShort [migA; migBad]) 2 1 0
                     (after (db_Begin noFaults (withRows [])))))
           migBad).
  - lia.
  - vm_compute; reflexivity.
  - vm_compute; reflexivity.
  - vm_compute; reflexivity.
  - left. eexists _, _. vm_compute; reflexivity.
Defined.

Lemma needsToRun_reconciles_witness :
  ∃ toRun w1 w2,
    needsToRun noFaults [migA; migB] (withRows ["1599691380_a"]) = Done (toRun, None) w1
    ∧ toRun = filter (λ c, dbName c ∉ ["1599691380_a"]) [migA; migB]
    ∧ (∀ c, c ∈ toRun ↔ c ∈ [migA; migB] ∧ dbName c ∉ ["1599691380_a"])
    ∧ toRun `sublist_of` [migA; migB]
    ∧ committed w1 = committed (withRows ["1599691380_a"])
    ∧ tx w1 = tx (withRows ["1599691380_a"])
    ∧ needsToRun noFaults [migA; migB] w1 = Done (toRun, None) w2.
Proof.
  apply (needsToRun_reconciles noFaults [migA; migB] (withRows ["1599691380_a"])
           ["1599691380_a"]).
  - reflexivity.
  - intros h _. reflexivity.
  - intros h _. split; reflexivity.
Defined.

Lemma Migrate_twice_witness :
  let w1 := after (Migrate noFaults sortShort [migA; migB] (withRows ["1599691380_a"])) in
  ∃ e2 w2 new,
    Migrate noFaults sortShort [migA; migB] w1 = Done e2 w2
    ∧ committed w2 = committed w1
    ∧ history w2 = new ++ history w1
    ∧ Forall (λ ev, ¬ applies ev.1) new.
Proof.
  intros w1.
  apply (proj1 (Migrate_twice noFaults sortShort sortShort_perm [migA; migB]
                  (withRows ["1599691380_a"]) None w1 ltac:(vm_compute; reflexivity))).
  - reflexivity.
  - intros h _. split; reflexivity.
Defined.

Lemma sortMigrations_sorted_copy_witness :
  ∃ h' sorted out,
    SliceModel.sortMigrations sortShort sampleHeap sampleSlice = Some (h', sorted)
    ∧ SliceModel.elems h' sorted = Some out
    ∧ out = sortMigrations sortShort [migA; migB; migC]
    ∧ out ≡ₚ [migA; migB; migC]
    ∧ (∀ i j a b, (i < j)%nat → out !! i = Some a → out !! j = Some b →
         time_le (Date a) (Date b))
    ∧ (NoDup (Date <$> [migA; migB; migC]) →
       ∀ i j a b, (i < j)%nat → out !! i = Some a → out !! j = Some b →
         Before (Date a) (Date b) = true)
    ∧ (∀ p, p ∈ dom sampleHeap → h' !! p = sampleHeap !! p)
    ∧ SliceModel.elems h' sampleSlice = Some [migA; migB; migC].
Proof.
  apply (sortMigrations_sorted_copy sortShort sortShort_perm sortShort_sorted
           sampleHeap sampleSlice [migA; migB; migC]).
  vm_compute; reflexivity.
Defined.

Lemma write_failure_witness :
  ∃ w' rb h,
    migrateUpN insertFails sortShort [migA] 1 (withRows []) = Done (Some "disk full") w'
    ∧ committed w' = committed (withRows [])
    ∧ tx w' = None
    ∧ history w' = (CallRollback, rb) :: (CallInsert (dbName migA), Some "disk full") :: h.
Proof.
  pose (w1 := after (db_Begin insertFails (withRows []))).
  apply (proj1 (write_failure_rolled_back_unwrapped insertFails sortShort [migA] 1 0
                  (withRows []) w1 ltac:(lia) ltac:(vm_compute; reflexivity))
           w1 migA
           (after (tx_increment (CallUp (dbName migA)) (Up migA) w1))
           "disk full"
           (after (tx_Exec_insert insertFails (dbName migA)
                     (after (tx_increment (CallUp (dbName migA)) (Up migA) w1)))));
    vm_compute; reflexivity.
Defined.

Lemma Migrate_rows_distinct_witness :
  NoDup (default [] (tracking (committed
    (after (Migrate noFaults sortShort [migA; migB] (withRows ["1599691380_a"])))))).
Proof.
  apply (Migrate_rows_distinct noFaults sortShort sortShort_perm [migA; migB]
           (withRows ["1599691380_a"])).
  - apply NoDup_singleton.
  - apply NoDup_singleton.
  - intros h _. split; reflexivity.
Defined.

Lemma runners_bounds_witness :
  ∃ e w', migrateUpN noFaults sortShort [migA; migB] 2 (withRows []) = Done e w'.
Proof.
  apply (proj1 (runners_bounds noFaults sortShort sortShort_perm [migA; migB] 2
                  (withRows []))).
  unfold Len. cbn [length]. lia.
Defined.


(** * Further properties of the runner *)

Lemma filter_all {A} (P : A → Prop) `{!∀ x, Decision (P x)} (l : list A) :
  (∀ x, x ∈ l → P x) → filter P l = l.
Proof.
  induction l as [|x l IH]; intros Hl; [done|].
  rewrite filter_cons, decide_True by (apply Hl; left).
  f_equal. apply IH. intros y Hy. apply Hl. by right.
Qed.

Section Further.

Context {Schema : Type}.
Implicit Types (mig m : Migration Schema) (migs ml ms sorted : MigrationList Schema).
Implicit Types (w : World Schema).
Variable env : Oracle.

(** ** The calls of the loops *)

Lemma upLoop_calls sorted n todo (i : nat) w w' :
  upLoop env sorted n todo (Z.of_nat i) w = Done Continue w' →
  history w' = reverse (upCalls (take todo (drop i sorted))) ++ history w.
Proof.
  revert i w. induction todo as [|todo IH]; intros i w.
  - cbn. by intros [= <-].
  - rewrite upLoop_S. pose proof (upStep_spec env sorted n (Z.of_nat i) w) as Hs.
    destruct (upStep env sorted n (Z.of_nat i) w) as [[|err] w1|msg w1]; [|done..].
    destruct Hs as (m & s & rows & _ & Hm & _ & _ & _ & _ & ->).
    rewrite Nat2Z.id in Hm.
    replace (Z.of_nat i + 1) with (Z.of_nat (S i)) by lia.
    intros Hloop%IH. rewrite Hloop. cbn [history].
    rewrite (drop_S _ _ _ Hm). cbn [take]. unfold upCalls. cbn [mbind list_bind].
    rewrite reverse_app, <- app_assoc. done.
Qed.

(** The down loop, entered at index [k - 1] with a bound of at least
    [-1], falls through exactly when the steps at the indices
    [k - 1, ..., bound + 1] all go through; the working copy then holds
    their schema changes, and the rows without their keys. *)
Lemma downLoop_continue sorted n bound (k : nat) w w' s :
  -1 ≤ bound → (k ≤ length sorted)%nat →
  downLoop env sorted n bound k w = Done Continue w' →
  tx w = Some s →
  let ms := reverse (take (Z.to_nat (Z.of_nat k - 1 - bound))
                          (drop (Z.to_nat (bound + 1)) sorted)) in
  committed w' = committed w
  ∧ tx w' = Some {| schema := downs ms (schema s);
                    tracking := (λ rows, deleteKeys rows ms) <$> tracking s |}
  ∧ history w' = reverse (downCalls ms) ++ history w
  ∧ sink w' = reverse (imap (λ j m, downNote m (Z.of_nat (k - 1 - j)) n) ms) ++ sink w.
Proof.
  intros Hb. revert w s. induction k as [|k IH]; intros w s Hk; rewrite downLoop_unfold.
  - rewrite Z.gtb_ltb, (proj2 (Z.ltb_ge _ _)) by lia. intros [= <-] Htx.
    replace (Z.to_nat (Z.of_nat 0 - 1 - bound)) with 0%nat by lia. cbn.
    repeat split; try done. rewrite Htx. f_equal. by destruct s as [? [?|]].
  - destruct (Z.of_nat (S k) - 1 >? bound) eqn:E.
    + rewrite Z.gtb_ltb in E. apply Z.ltb_lt in E.
      pose proof (downStep_spec env sorted n (Z.of_nat (S k) - 1) w) as Hs.
      destruct (downStep env sorted n _ w) as [[|err] w1|msg w1]; [|done..].
      destruct Hs as (m & s' & rows & _ & Hm & Htx' & Hrows & _ & _ & ->).
      intros Hloop Htx. rewrite Htx in Htx'. injection Htx' as <-.
      replace (Z.to_nat (Z.of_nat (S k) - 1)) with k in Hm by lia.
      eapply IH in Hloop; [|lia|done]. cbn [tx committed sink history schema tracking] in Hloop.
      destruct Hloop as (Hc & Htx2 & Hh & Hsink).
      replace (Z.to_nat (Z.of_nat (S k) - 1 - bound))
        with (S (Z.to_nat (Z.of_nat k - 1 - bound))) by lia.
      set (c := Z.to_nat (Z.of_nat k - 1 - bound)) in *.
      set (st := Z.to_nat (bound + 1)) in *.
      assert (Hc' : drop st sorted !! c = Some m).
      { rewrite lookup_drop. by replace (st + c)%nat with k by lia. }
      rewrite (take_S_r _ _ _ Hc'), reverse_snoc.
      split; [done|]. split; [|split].
      * rewrite Htx2, Hrows. done.
      * rewrite Hh. unfold downCalls. cbn [mbind list_bind].
        by rewrite reverse_app, <- app_assoc.
      * rewrite Hsink. cbn [imap]. rewrite reverse_cons, <- app_assoc. cbn [app].
        replace (Z.of_nat (S k) - 1) with (Z.of_nat (S k - 1 - 0)) by lia.
        do 2 f_equal. apply imap_ext. intros j x _. cbn. do 2 f_equal. lia.
    + rewrite Z.gtb_ltb in E. apply Z.ltb_ge in E. intros [= <-] Htx.
      replace (Z.to_nat (Z.of_nat (S k) - 1 - bound)) with 0%nat by lia. cbn.
      repeat split; try done. rewrite Htx. f_equal. by destruct s as [? [?|]].
Qed.

(** Below [-1] the down loop cannot fall through. *)
Lemma downLoop_continue_bound sorted n bound (k : nat) w w' :
  downLoop env sorted n bound k w = Done Continue w' → -1 ≤ bound.
Proof.
  revert w. induction k as [|k IH]; intros w; rewrite downLoop_unfold;
    (destruct (_ >? bound) eqn:E;
      [|rewrite Z.gtb_ltb in E; apply Z.ltb_ge in E; intros _; lia]);
    (match goal with
     | |- context [downStep env sorted n ?i w] =>
         pose proof (downStep_spec env sorted n i w) as Hs
     end);
    destruct (downStep env sorted n _ w) as [[|err] w1|msg w1]; try done.
  - destruct Hs as (m & _ & _ & ? & _). lia.
  - apply IH.
Qed.


Section FurtherSorted.

Variable sort_Sort : MigrationList Schema → MigrationList Schema.
Hypothesis sort_Sort_perm : ∀ ml, sort_Sort ml ≡ₚ ml.

(** The up-runner, outcome by outcome. *)
Lemma migrateUpN_outcome migs n w :
  let sorted := sortMigrations sort_Sort migs in
  let ms := take (Z.to_nat n) sorted in
  match migrateUpN env sort_Sort migs n w with
  | Done None w' =>
      length ms = Z.to_nat n
      ∧ committed w' =
          {| schema := ups ms (schema (committed w));
             tracking := (λ rows, rows ++ (dbName <$> ms)) <$> tracking (committed w) |}
      ∧ tx w' = None
      ∧ history w' = (CallCommit, None) :: reverse (upCalls ms)
                       ++ (CallBegin, None) :: history w
  | Done (Some e) w' => committed w' = committed w
  | Panic _ w' => committed w' = committed w ∧ (length sorted < Z.to_nat n)%nat
  end.
Proof.
  intros sorted ms.
  pose proof (migrateUpN_result env sort_Sort migs n w) as HR. cbn zeta in HR.
  fold sorted in HR. fold ms in HR.
  destruct (migrateUpN env sort_Sort migs n w) as [[e|] w'|msg w'] eqn:HM; [done| |done].
  destruct HR as (Hlen & Hc & Htx). do 3 (split; [done|]).
  destruct (db_Begin env w) as [[e|] w1|] eqn:Hb;
    [| |by unfold db_Begin in Hb; destruct (outcome _ _ _ _)].
  { unfold migrateUpN, mbind, M_bind, mret, M_ret in HM. by rewrite Hb in HM. }
  rewrite (migrateUpN_begun env sort_Sort _ _ _ _ Hb) in HM. fold sorted in HM.
  destruct (db_Begin_spec env _ _ _ Hb) as (_ & _ & Hh1 & Hopen & _).
  specialize (Hopen eq_refl).
  destruct (upLoop_frame env sorted n (Z.to_nat n) 0 w1) as [_ HRet].
  destruct (upLoop env sorted n (Z.to_nat n) 0 w1) as [[|err] wl|msg wl] eqn:Hloop; [| |done].
  - pose proof (upLoop_calls _ _ _ 0 _ _ Hloop) as Hcalls. rewrite drop_0 in Hcalls.
    destruct (upLoop_continue env _ _ _ 0 _ _ _ Hloop Hopen) as (_ & _ & Htxl & _).
    destruct (tx_Commit_spec env _ _ Htxl) as (e & w'' & Hcm & _ & _ & Hh' & _).
    rewrite Hcm in HM. injection HM as -> ->. by rewrite Hh', Hcalls, Hh1.
  - destruct (HRet _ _ eq_refl) as ([e He] & _). congruence.
Qed.

(** The down-runner, outcome by outcome. *)
Lemma migrateDownN_outcome migs n w :
  0 ≤ n < 2 ^ 63 → Len migs < 2 ^ 63 →
  let sorted := sortMigrations sort_Sort migs in
  let ms := reverse (drop (length sorted - Z.to_nat n) sorted) in
  match migrateDownN env sort_Sort migs n w with
  | Done None w' =>
      n ≤ Len migs
      ∧ committed w' =
          {| schema := downs ms (schema (committed w));
             tracking := (λ rows, deleteKeys rows ms) <$> tracking (committed w) |}
      ∧ tx w' = None
      ∧ history w' = (CallCommit, None) :: reverse (downCalls ms)
                       ++ (CallBegin, None) :: history w
  | Done (Some e) w' => committed w' = committed w
  | Panic _ w' => committed w' = committed w ∧ Len migs < n
  end.
Proof.
  intros Hn Hbig sorted ms.
  pose proof (sortMigrations_length sort_Sort sort_Sort_perm migs) as Hlen.
  fold sorted in Hlen.
  destruct (db_Begin env w) as [[e|] w1|] eqn:Hb;
    [| |by unfold db_Begin in Hb; destruct (outcome _ _ _ _)].
  { unfold migrateDownN, mbind, M_bind, mret, M_ret. rewrite Hb.
    by destruct (db_Begin_spec env _ _ _ Hb) as (? & _). }
  rewrite (migrateDownN_begun env sort_Sort _ _ _ _ Hb). cbn zeta. fold sorted.
  destruct (db_Begin_spec env _ _ _ Hb) as (Hc1 & _ & Hh1 & Hopen & _).
  specialize (Hopen eq_refl).
  assert (Hbound : wrap64 (Len sorted - 1 - n) = Len sorted - 1 - n).
  { apply wrap64_id. unfold Len in *. lia. }
  rewrite Hbound.
  destruct (downLoop_frame env sorted n (Len sorted - 1 - n) (length sorted) w1)
    as [Hc HRet].
  destruct (downLoop env sorted n _ (length sorted) w1) as [[|err] wl|msg wl] eqn:Hloop.
  - pose proof (downLoop_continue_bound _ _ _ _ _ _ Hloop) as Hge.
    destruct (downLoop_continue sorted n _ (length sorted) w1 wl (committed w) Hge
                (le_n _) Hloop Hopen) as (_ & Htxl & Hh & _).
    replace (Z.to_nat (Z.of_nat (length sorted) - 1 - (Len sorted - 1 - n)))
      with (Z.to_nat n) in Htxl, Hh by (unfold Len; lia).
    replace (Z.to_nat (Len sorted - 1 - n + 1))
      with (length sorted - Z.to_nat n)%nat in Htxl, Hh by (unfold Len in *; lia).
    assert (Htake : take (Z.to_nat n) (drop (length sorted - Z.to_nat n) sorted)
                    = drop (length sorted - Z.to_nat n) sorted).
    { apply take_ge. rewrite length_drop. unfold Len in *. lia. }
    rewrite Htake in Htxl, Hh. fold ms in Htxl, Hh.
    destruct (tx_Commit_spec env _ _ Htxl) as (e & w' & -> & Htx' & _ & Hh' & Hok & Hfail).
    destruct e as [e|].
    + rewrite Hfail by done. cbn in Hc. congruence.
    + split; [unfold Len in *; lia|]. split; [by apply Hok|]. split; [done|].
      by rewrite Hh', Hh, Hh1.
  - destruct (HRet _ _ eq_refl) as ([e ->] & _). cbn in Hc. congruence.
  - cbn in Hc. split; [congruence|].
    apply downLoop_panic in Hloop; [|done]. unfold Len in *. lia.
Qed.


Lemma deleteKeys_filter (rows : list string) ms :
  deleteKeys rows ms = filter (λ r, r ∉ dbName <$> ms) rows.
Proof.
  unfold deleteKeys. revert rows. induction ms as [|m ms IH]; intros rows; cbn [foldl].
  - symmetry. apply filter_all. intros r _. cbn. apply not_elem_of_nil.
  - rewrite IH, list_filter_filter. apply list_filter_iff. intros r.
    rewrite fmap_cons, not_elem_of_cons. tauto.
Qed.

Lemma downs_ups ms (sch : Schema) :
  (∀ c s, c ∈ ms → (Down c (Up c s).1).1 = s) →
  downs (reverse ms) (ups ms sch) = sch.
Proof.
  revert sch. induction ms as [|m ms IH]; intros sch Hinv; [done|].
  unfold downs, ups in *. rewrite reverse_cons, foldl_app. cbn [foldl].
  rewrite IH; [apply Hinv; left|]. intros c s Hc. apply Hinv. by right.
Qed.

(** X3. Round trip.  When no candidate's tracking key is a row yet and
    every unit's [Down] undoes its [Up] on the schema, running all the
    units up and then all of them down, both runs returning nil, leaves
    the committed store, schema and tracking rows, as it was at first. *)
Theorem up_then_down_restores migs w w1 w2 :
  Len migs < 2 ^ 63 →
  (∀ c, c ∈ migs → dbName c ∉ default [] (tracking (committed w))) →
  (∀ c s, c ∈ migs → (Down c (Up c s).1).1 = s) →
  migrateUpN env sort_Sort migs (Len migs) w = Done None w1 →
  migrateDownN env sort_Sort migs (Len migs) w1 = Done None w2 →
  committed w2 = committed w.
Proof.
  intros Hbig Hfresh Hinv Hup Hdown.
  pose proof (migrateUpN_all env sort_Sort sort_Sort_perm migs w) as H1.
  rewrite Hup in H1. destruct H1 as [H1 _].
  pose proof (migrateDownN_outcome migs (Len migs) w1) as H2.
  rewrite Hdown in H2. cbn zeta in H2.
  destruct H2 as (_ & H2 & _); [unfold Len in *; lia|done|].
  set (sorted := sortMigrations sort_Sort migs) in *.
  assert (Hlen : length sorted = length migs)
    by apply (sortMigrations_length sort_Sort sort_Sort_perm).
  unfold Len in H2. rewrite Nat2Z.id, <- Hlen, Nat.sub_diag, drop_0 in H2.
  rewrite H2, H1. cbn [schema tracking].
  rewrite downs_ups.
  2: { intros c s Hc. apply Hinv. by rewrite <- (sortMigrations_perm sort_Sort sort_Sort_perm). }
  destruct (committed w) as [sch [rows|]]; cbn; [|done]. do 2 f_equal.
  rewrite deleteKeys_filter, filter_app.
  rewrite (filter_none _ (dbName <$> sorted)).
  2: { intros r Hr Hn. apply Hn. rewrite fmap_reverse. by apply elem_of_reverse. }
  rewrite app_nil_r. apply filter_all. intros r Hr.
  rewrite fmap_reverse, elem_of_reverse. intros [c [-> Hc]]%list_elem_of_fmap.
  apply (Hfresh c); [|done].
  by rewrite <- (sortMigrations_perm sort_Sort sort_Sort_perm).
Qed.


Lemma wrapUp_text (name e : string) :
  wrapUp name e = "Failed to up " +:+ name +:+ ": " +:+ e.
Proof.
  unfold wrapUp.
  change (Sprintf "Failed to up %s: %s" [AStr name; AStr e])
    with ("Failed to up " +:+ name +:+ String ":" (String " " (e +:+ ""))).
  by rewrite append_nil_r.
Qed.

Lemma wrapDown_text (name e : string) :
  wrapDown name e = "Failed to down " +:+ name +:+ ": " +:+ e.
Proof.
  unfold wrapDown.
  change (Sprintf "Failed to down %s: %s" [AStr name; AStr e])
    with ("Failed to down " +:+ name +:+ String ":" (String " " (e +:+ ""))).
  by rewrite append_nil_r.
Qed.

(** X4. When the steps before it have gone through and a unit's
    increment returns the error [e], the runner returns the error
    "Failed to up <key>: <e>" (or "Failed to down <key>: <e>"), after a
    rollback that directly follows the failed increment: no tracking row
    is written and no progress is notified for that unit, and the
    committed store is unchanged. *)
Theorem increment_failure_wrapped migs n (k : nat) w w1 :
  let sorted := sortMigrations sort_Sort migs in
  Z.of_nat k < n →
  db_Begin env w = Done None w1 →
  (∀ wk m e wk1,
     upLoop env sorted n k 0 w1 = Done Continue wk →
     sorted !! k = Some m →
     tx_increment (CallUp (dbName m)) (Up m) wk = Done (Some e) wk1 →
     ∃ w' rb,
       migrateUpN env sort_Sort migs n w
         = Done (Some ("Failed to up " +:+ dbName m +:+ ": " +:+ e)) w'
       ∧ committed w' = committed w ∧ tx w' = None ∧ sink w' = sink wk
       ∧ history w' = (CallRollback, rb) :: (CallUp (dbName m), Some e) :: history wk)
  ∧ (∀ wk m e wk1,
     n < 2 ^ 63 → Len sorted < 2 ^ 63 → (k < length sorted)%nat →
     downLoop env sorted n (Len sorted - 1 - Z.of_nat k) (length sorted) w1
       = Done Continue wk →
     sorted !! (length sorted - 1 - k)%nat = Some m →
     tx_increment (CallDown (dbName m)) (Down m) wk = Done (Some e) wk1 →
     ∃ w' rb,
       migrateDownN env sort_Sort migs n w
         = Done (Some ("Failed to down " +:+ dbName m +:+ ": " +:+ e)) w'
       ∧ committed w' = committed w ∧ tx w' = None ∧ sink w' = sink wk
       ∧ history w' = (CallRollback, rb) :: (CallDown (dbName m), Some e) :: history wk).
Proof.
  intros sorted Hk Hb.
  destruct (db_Begin_spec env _ _ _ Hb) as (Hc1 & _ & _ & _ & _).
  split.
  - intros wk m e wk1 Hpre Hm Hinc.
    pose proof (upStep_spec env sorted n (Z.of_nat k) wk) as Hs.
    destruct (upLoop_frame env sorted n k 0 w1) as [Hck _]. rewrite Hpre in Hck.
    destruct (upStep env sorted n (Z.of_nat k) wk) as [[|err] w'|msg w'] eqn:Hstep.
    + exfalso. eapply (upFails_not_continue env); [exact Hm| |exact Hstep].
      left. by exists e, wk1.
    + destruct Hs as (m' & rb & _ & Hm' & Hc & Htx & Hsink & Hcase).
      rewrite Nat2Z.id in Hm'. rewrite Hm in Hm'. injection Hm' as <-.
      destruct Hcase as [(e' & ? & Hinc' & -> & Hh)|(e' & ? & ? & Hinc' & _)];
        [|congruence].
      rewrite Hinc in Hinc'. injection Hinc' as <- <-.
      exists w', rb. rewrite <- wrapUp_text.
      split; [by eapply (migrateUpN_returns env)|]. cbn in Hck.
      split; [congruence|]. done.
    + destruct Hs as [_ [?|Hn]]; [lia|]. rewrite Nat2Z.id in Hn. congruence.
  - intros wk m e wk1 Hn Hlen Hklen Hpre Hm Hinc.
    set (i := Len sorted - 1 - Z.of_nat k) in *.
    assert (Hi : Z.to_nat i = (length sorted - 1 - k)%nat) by (unfold i, Len; lia).
    pose proof (downStep_spec env sorted n i wk) as Hs.
    destruct (downLoop_frame env sorted n i (length sorted) w1) as [Hck _].
    rewrite Hpre in Hck.
    destruct (downStep env sorted n i wk) as [[|err] w'|msg w'] eqn:Hstep.
    + destruct Hs as (m' & s & rows & _ & Hm' & _ & _ & _ & (v1 & v2 & Hinc' & _) & _).
      rewrite Hi, Hm in Hm'. injection Hm' as <-. congruence.
    + destruct Hs as (m' & rb & _ & Hm' & Hc & Htx & Hsink & Hcase).
      rewrite Hi, Hm in Hm'. injection Hm' as <-.
      destruct Hcase as [(e' & ? & Hinc' & -> & Hh)|(e' & ? & ? & Hinc' & _)];
        [|congruence].
      rewrite Hinc in Hinc'. injection Hinc' as <- <-.
      exists w', rb. rewrite <- wrapDown_text.
      split; [by eapply (migrateDownN_returns env sort_Sort migs n k)|]. cbn in Hck.
      split; [congruence|]. done.
    + destruct Hs as [_ [?|Hnone]]; [unfold i, Len in *; lia|].
      rewrite Hi in Hnone. congruence.
Qed.

(** X5. Failures at the edges of the transaction.  When [Begin] fails,
    either runner returns that error having made no other call.  When
    every step of the up-runner has gone through and [Commit] fails, the
    runner returns the error of [Commit] as it is and nothing is
    persisted, although the progress of all [n] steps has already been
    notified. *)
Theorem transaction_edge_failures migs n w :
  let sorted := sortMigrations sort_Sort migs in
  (∀ e, env (history w) CallBegin = Some e →
     migrateUpN env sort_Sort migs n w = Done (Some e) (note CallBegin (Some e) w)
     ∧ migrateDownN env sort_Sort migs n w = Done (Some e) (note CallBegin (Some e) w))
  ∧ (∀ w1 wl e,
     db_Begin env w = Done None w1 →
     upLoop env sorted n (Z.to_nat n) 0 w1 = Done Continue wl →
     env (history wl) CallCommit = Some e →
     ∃ w', migrateUpN env sort_Sort migs n w = Done (Some e) w'
       ∧ committed w' = committed w ∧ tx w' = None
       ∧ length (take (Z.to_nat n) sorted) = Z.to_nat n
       ∧ sink w' = reverse (imap (λ j m, upNote m (Z.of_nat j) n)
                              (take (Z.to_nat n) sorted)) ++ sink w).
Proof.
  intros sorted. split.
  - intros e He.
    assert (Hb : db_Begin env w = Done (Some e) (note CallBegin (Some e) w)).
    { unfold db_Begin, outcome. by rewrite He. }
    unfold migrateUpN, migrateDownN, mbind, M_bind, mret, M_ret. by rewrite Hb.
  - intros w1 wl e Hb Hloop He.
    rewrite (migrateUpN_begun env sort_Sort _ _ _ _ Hb). fold sorted. rewrite Hloop.
    destruct (db_Begin_spec env _ _ _ Hb) as (Hc1 & Hs1 & _ & Hopen & _).
    specialize (Hopen eq_refl).
    destruct (upLoop_continue env _ _ _ 0 _ _ _ Hloop Hopen)
      as (Hlen & Hc & Htxl & Hsink & _).
    rewrite drop_0 in Hlen, Hsink.
    unfold tx_Commit, outcome. rewrite He. cbn. eexists. split; [done|]. cbn.
    split; [congruence|]. split; [done|]. split; [done|]. by rewrite Hsink, Hs1.
Qed.

(** X6. [Migrate] stops at the first failure before the transaction.
    When the creation of the tracking table fails it returns that error
    and has made no other call.  When the creation goes through and the
    query of the applied set fails it returns that error, has begun no
    transaction and has notified nothing. *)
Theorem Migrate_aborts_early migs w :
  (∀ e, env (history w) CallCreateTable = Some e →
     Migrate env sort_Sort migs w
       = Done (Some e) (note CallCreateTable (Some e) w))
  ∧ (∀ e, env (history w) CallCreateTable = None →
     env ((CallCreateTable, None) :: history w) CallQuery = Some e →
     ∃ w', Migrate env sort_Sort migs w = Done (Some e) w'
       ∧ history w' = (CallQuery, Some e) :: (CallCreateTable, None) :: history w
       ∧ committed w' = ensured (committed w)
       ∧ tx w' = tx w ∧ sink w' = sink w).
Proof.
  split.
  - intros e He. unfold Migrate, checkMigrationTable, db_Exec_create, outcome,
      mbind, M_bind, mret, M_ret. by rewrite He.
  - intros e Hcreate Hquery.
    unfold Migrate, checkMigrationTable, db_Exec_create, needsToRun, db_Query, outcome,
      mbind, M_bind, mret, M_ret.
    rewrite Hcreate. cbn. rewrite Hquery. cbn. eexists. by split.
Qed.

(** What a run of [Migrate] that returns nil after a clean read has run:
    the unapplied candidates, sorted. *)
Lemma Migrate_success migs w w' :
  readsClean env (history w) →
  Migrate env sort_Sort migs w = Done None w' →
  ∃ wr reads,
    needsToRun env migs (after (checkMigrationTable env w))
      = Done (unapplied migs (committed w), None) wr
    ∧ committed wr = ensured (committed w)
    ∧ sink wr = sink w
    ∧ history wr = reads ++ (CallCreateTable, None) :: history w
    ∧ Forall readEvent reads
    ∧ migrateUpN env sort_Sort (unapplied migs (committed w))
        (Len (unapplied migs (committed w)))
        (with_sink (runStart (unapplied migs (committed w)) :: sink wr) wr)
      = Done None w'.
Proof.
  intros Hclean HM.
  destruct (Migrate_cases env sort_Sort migs w) as (e0 & w0 & Hcreate & Hfail & Hok).
  destruct (checkMigrationTable_spec env w)
    as (e0' & w0' & Hcreate' & _ & Hs0 & Hh0 & _ & Hc2).
  rewrite Hcreate in Hcreate'. injection Hcreate' as <- <-.
  destruct e0 as [e0|]; [by rewrite Hfail in HM|].
  destruct (Hok eq_refl) as (toRun & err & wr & Hrun & Hfail2 & Hok2).
  destruct (needsToRun_frame env migs w0)
    as (? & ? & ? & reads & Hrun' & Hcr & _ & Hsr & Hhr & Hreads & _).
  rewrite Hrun in Hrun'. injection Hrun' as <- <- <-.
  destruct err as [err|]; [by rewrite Hfail2 in HM|].
  rewrite Hok2 in HM by done.
  assert (Hsuf : history w `suffix_of` history w0)
    by (rewrite Hh0; by apply suffix_cons_r).
  pose proof (needsToRun_clean env _ _ _ _ _ Hclean Hsuf Hrun) as ->.
  rewrite Hc2, unapplied_ensured in * by done.
  exists wr, reads. rewrite Hcreate. cbn [after].
  split; [done|]. split; [congruence|]. split; [congruence|].
  split; [by rewrite Hhr, Hh0|]. split; done.
Qed.

(** When [Migrate] returns nil after reading the tracking table
    cleanly, it has applied exactly the candidates that were unapplied,
    in sorted order: the committed schema is theirs applied in turn, the
    tracking table (created if it was missing) holds the old rows
    followed by their keys, and the calls made are the table creation,
    the read, [Begin], one [Up] and one INSERT per unit, and [Commit]. *)
Lemma Migrate_success_store migs w w' :
  readsClean env (history w) →
  Migrate env sort_Sort migs w = Done None w' →
  let su := sortMigrations sort_Sort (unapplied migs (committed w)) in
  committed w' =
    {| schema := ups su (schema (committed w));
       tracking := Some (default [] (tracking (committed w)) ++ (dbName <$> su)) |}
  ∧ tx w' = None
  ∧ ∃ reads,
      Forall readEvent reads
      ∧ history w' = (CallCommit, None) :: reverse (upCalls su)
                       ++ (CallBegin, None) :: reads
                       ++ (CallCreateTable, None) :: history w.
Proof.
  intros Hclean HM su.
  destruct (Migrate_success migs w w' Hclean HM)
    as (wr & reads & _ & Hcr & _ & Hhr & Hreads & Hup).
  pose proof (migrateUpN_outcome (unapplied migs (committed w))
                (Len (unapplied migs (committed w)))
                (with_sink (runStart (unapplied migs (committed w)) :: sink wr) wr)) as HO.
  rewrite Hup in HO. cbn zeta in HO. fold su in HO.
  assert (Htake : take (Z.to_nat (Len (unapplied migs (committed w)))) su = su).
  { apply take_ge. unfold Len, su.
    rewrite (sortMigrations_length sort_Sort sort_Sort_perm). lia. }
  rewrite Htake in HO. destruct HO as (_ & Hc & Htx & Hh).
  cbn [committed history with_sink] in Hc, Hh. rewrite Hcr in Hc.
  split; [by rewrite Hc|]. split; [done|].
  exists reads. split; [done|]. by rewrite Hh, Hhr.
Qed.

(** The notifications of a run of [Migrate] that returns nil after a
    clean read: first "Running migrations..." with the field n set to the
    number of unapplied candidates, then for the k-th unit of the sorted
    unapplied list, k counted from 1, its tracking key, k and that
    number. *)
Lemma Migrate_success_sink migs w w' :
  readsClean env (history w) →
  Migrate env sort_Sort migs w = Done None w' →
  let toRun := unapplied migs (committed w) in
  sink w' =
    reverse (imap (λ j m, {| fields := []; format := "Up'd %s (%d/%d)";
                             args := [AStr (dbName m); AInt (Z.of_nat j + 1);
                                      AInt (Len toRun)] |})
               (sortMigrations sort_Sort toRun))
    ++ {| fields := [("n", Len toRun)];
          format := "Running migrations..."; args := [] |} :: sink w.
Proof.
  intros Hclean HM toRun.
  destruct (Migrate_success migs w w' Hclean HM)
    as (wr & reads & _ & _ & Hsr & _ & _ & Hup).
  fold toRun in Hup.
  rewrite (migrateUpN_progress env sort_Sort _ _ _ _ Hup). cbn [sink with_sink].
  rewrite Hsr. unfold runStart. rewrite take_ge; [done|]. unfold Len.
  rewrite (sortMigrations_length sort_Sort sort_Sort_perm). lia.
Qed.


Lemma db_Begin_total w : ∃ e w1, db_Begin env w = Done e w1.
Proof. unfold db_Begin. destruct (outcome _ _ _ _); eauto. Qed.

(** A transaction in which no step ran: [Begin], then [Commit]. *)
Lemma empty_transaction w w1 :
  db_Begin env w = Done None w1 →
  ∃ e w',
    tx_Commit env w1 = Done e w'
    ∧ committed w' = committed w ∧ sink w' = sink w
    ∧ history w' = [(CallCommit, e); (CallBegin, None)] ++ history w.
Proof.
  intros Hb. destruct (db_Begin_spec env _ _ _ Hb) as (Hc & Hs & Hh & Hopen & _).
  specialize (Hopen eq_refl).
  destruct (tx_Commit_spec env _ _ Hopen) as (e & w' & -> & _ & Hs' & Hh' & Hok & Hfail).
  exists e, w'. split; [done|]. split; [|split; [congruence|by rewrite Hh', Hh]].
  destruct e as [e|]; [rewrite Hfail by done|rewrite Hok by done]; done.
Qed.

(** X9. With [n <= 0] the up-runner runs no step.  It returns, whatever
    the driver does, having called no increment, written no tracking row
    and sent no notification, and the committed store is unchanged.  The
    down-runner does the same for [len - 2^63 <= n <= 0]. *)
Theorem nonpositive_n_runs_nothing migs n w :
  n ≤ 0 →
  (∃ e w' new,
     migrateUpN env sort_Sort migs n w = Done e w'
     ∧ committed w' = committed w ∧ sink w' = sink w
     ∧ history w' = new ++ history w ∧ Forall (λ ev, ¬ applies ev.1) new)
  ∧ (Len migs - 2 ^ 63 ≤ n → Len migs < 2 ^ 63 →
     ∃ e w' new,
       migrateDownN env sort_Sort migs n w = Done e w'
       ∧ committed w' = committed w ∧ sink w' = sink w
       ∧ history w' = new ++ history w ∧ Forall (λ ev, ¬ applies ev.1) new).
Proof.
  intros Hn.
  assert (Hquiet1 : ∀ e : error,
            Forall (λ ev : Call * error, ¬ applies ev.1) [(CallBegin, e)]).
  { intros e. apply Forall_cons. split; [cbn; tauto|]. by apply Forall_nil. }
  assert (Hquiet2 : ∀ e : error,
            Forall (λ ev : Call * error, ¬ applies ev.1)
              [(CallCommit, e); (CallBegin, None)]).
  { intros e. apply Forall_cons. split; [cbn; tauto|]. apply Hquiet1. }
  destruct (db_Begin_total w) as ([e|] & w1 & Hb).
  - destruct (db_Begin_spec env _ _ _ Hb) as (Hc & Hs & Hh & _).
    split; [|intros _ _];
      (exists (Some e), w1, [(CallBegin, Some e)];
       split; [unfold migrateUpN, migrateDownN, mbind, M_bind, mret, M_ret; by rewrite Hb|];
       do 3 (split; [done|]); apply Hquiet1).
  - destruct (empty_transaction w w1 Hb) as (e & w' & Hcm & Hc & Hs & Hh).
    split.
    + exists e, w', [(CallCommit, e); (CallBegin, None)].
      rewrite (migrateUpN_begun env sort_Sort _ _ _ _ Hb).
      replace (Z.to_nat n) with 0%nat by lia. cbn [upLoop].
      unfold mret, M_ret. split; [done|]. do 3 (split; [done|]). apply Hquiet2.
    + intros Hlow Hbig. exists e, w', [(CallCommit, e); (CallBegin, None)].
      rewrite (migrateDownN_begun env sort_Sort _ _ _ _ Hb). cbn zeta.
      pose proof (sortMigrations_length sort_Sort sort_Sort_perm migs) as Hlen.
      unfold Len in *. rewrite Hlen, wrap64_id by lia.
      rewrite downLoop_unfold, Z.gtb_ltb, (proj2 (Z.ltb_ge _ _)) by lia.
      split; [done|]. do 3 (split; [done|]). apply Hquiet2.
Qed.

Lemma wrap64_high z : 2 ^ 63 ≤ z < 2 ^ 64 → wrap64 z = z - 2 ^ 64.
Proof.
  intros Hz. unfold wrap64.
  replace (z + 2 ^ 63) with (z - 2 ^ 63 + 1 * 2 ^ 64) by lia.
  rewrite Z_mod_plus_full, Z.mod_small; lia.
Qed.

(** X10. The loop bound of the down-runner wraps around.  With
    [-2^63 <= n < len - 2^63] the bound [len - 1 - n] leaves the 64-bit
    range and comes back below [-1]: once the transaction has begun and
    every unit of the list has gone down, the runner indexes the list at
    [-1] and panics, where the up-runner with the same [n] runs
    nothing. *)
Theorem migrateDownN_bound_wraps migs n w w1 wl :
  - 2 ^ 63 ≤ n < Len migs - 2 ^ 63 → Len migs < 2 ^ 63 →
  db_Begin env w = Done None w1 →
  downLoop env (sortMigrations sort_Sort migs) n (-1)
    (length (sortMigrations sort_Sort migs)) w1 = Done Continue wl →
  ∃ msg, migrateDownN env sort_Sort migs n w = Panic msg wl.
Proof.
  intros Hn Hbig Hb Hall.
  rewrite (migrateDownN_begun env sort_Sort _ _ _ _ Hb). cbn zeta.
  pose proof (sortMigrations_length sort_Sort sort_Sort_perm migs) as Hlen.
  destruct (downLoop_overrun env _ n
              (wrap64 (Len (sortMigrations sort_Sort migs) - 1 - n)) w1 wl Hall)
    as [msg ->]; [|by exists msg].
  unfold Len in *. rewrite Hlen, wrap64_high by lia. lia.
Qed.

Lemma ups_noop ms (sch : Schema) :
  (∀ c, c ∈ ms → ∀ s, (Up c s).1 = s) → ups ms sch = sch.
Proof.
  unfold ups. revert sch. induction ms as [|m ms IH]; intros sch H; [done|].
  cbn [foldl]. rewrite H by left. apply IH. intros c Hc. apply H. by right.
Qed.

(** X11. Units built by [NewSimpleMigration] with a nil [up] can be run
    up: when the up-runner returns nil their tracking keys have been
    recorded and the schema is untouched. *)
Theorem nil_up_is_recorded migs n w w' :
  (∀ c, c ∈ migs → ∃ name date down, c = simple (NewSimpleMigration name date None down)) →
  migrateUpN env sort_Sort migs n w = Done None w' →
  let ms := take (Z.to_nat n) (sortMigrations sort_Sort migs) in
  length ms = Z.to_nat n
  ∧ schema (committed w') = schema (committed w)
  ∧ tracking (committed w')
    = (λ rows, rows ++ (dbName <$> ms)) <$> tracking (committed w).
Proof.
  intros Hnil Hup ms.
  pose proof (migrateUpN_result env sort_Sort migs n w) as HR.
  rewrite Hup in HR. cbn zeta in HR. fold ms in HR. destruct HR as (Hlen & Hc & _).
  split; [done|]. rewrite Hc. cbn. split; [|done].
  apply ups_noop. intros c Hc' s.
  assert (Hin : c ∈ migs).
  { rewrite <- (sortMigrations_perm sort_Sort sort_Sort_perm).
    revert Hc'. unfold ms. apply subseteq_take. }
  by destruct (Hnil c Hin) as (name & date & down & ->).
Qed.

End FurtherSorted.

Lemma needsToRun_error migs w toRun e w' :
  needsToRun env migs w = Done (toRun, Some e) w' → toRun = [].
Proof.
  unfold needsToRun, db_Query, mbind, M_bind, mret, M_ret.
  destruct (outcome env w CallQuery _) as [e'|] eqn:He; [cbn; congruence|].
  destruct (tracking (committed w)) as [rows|];
    [|unfold outcome in He; by destruct (env (history w) CallQuery)].
  cbn match. destruct (scanRows env rows ∅ _) as [A w1|]; [|done].
  unfold rows_Close. cbn. congruence.
Qed.

(** X12. Reconciliation only reads.  Whatever the driver does,
    [needsToRun] returns, having changed neither the committed store nor
    the transaction nor the sink and having called only Query, Next, Scan
    and Close.  With an error it returns no list.  Without one, its list
    is a sublist of the candidates that holds every candidate whose key is
    not a row of the tracking table: a failed read can add applied units
    to the list, it cannot lose an unapplied one. *)
Theorem needsToRun_only_reads migs w :
  ∃ toRun err w' new,
    needsToRun env migs w = Done (toRun, err) w'
    ∧ committed w' = committed w ∧ tx w' = tx w ∧ sink w' = sink w
    ∧ history w' = new ++ history w ∧ Forall readEvent new
    ∧ (is_Some err → toRun = [])
    ∧ (err = None →
       toRun `sublist_of` migs
       ∧ ∀ c, c ∈ migs → dbName c ∉ default [] (tracking (committed w)) → c ∈ toRun).
Proof.
  destruct (needsToRun_frame env migs w)
    as (toRun & err & w' & new & Hrun & Hc & Htx & Hs & Hh & Hnew & _).
  exists toRun, err, w', new. do 6 (split; [done|]). split.
  - intros [e ->]. by eapply needsToRun_error.
  - intros ->. destruct (needsToRun_sound env _ _ _ _ Hrun) as (rows & A & Hrows & HA & ->).
    split; [apply sublist_filter|]. intros c Hc' Hfresh.
    apply list_elem_of_filter. split; [|done].
    rewrite Hrows in Hfresh. cbn in Hfresh.
    destruct (A !! dbName c) as [b|] eqn:HAc; [|done].
    destruct (HA (dbName c)) as [?|Hempty]; [by eexists|done|].
    by apply dbName_not_empty in Hempty.
Qed.

(** ** The order of the runs *)

Lemma dateOrdered_drop (l : MigrationList Schema) (k : nat) :
  dateOrdered l → dateOrdered (drop k l).
Proof.
  intros Hl i j a b Hij Ha Hb. rewrite lookup_drop in Ha, Hb.
  apply (Hl (k + i)%nat (k + j)%nat); [lia|done..].
Qed.

Lemma dateOrdered_take_drop (l : MigrationList Schema) (k : nat) a b :
  dateOrdered l → a ∈ take k l → b ∈ drop k l → time_le (Date a) (Date b).
Proof.
  intros Hl [i Ha]%list_elem_of_lookup [j Hb]%list_elem_of_lookup.
  pose proof (lookup_lt_Some _ _ _ Ha) as Hi. rewrite length_take in Hi.
  rewrite lookup_take_lt in Ha by lia. rewrite lookup_drop in Hb.
  apply (Hl i (k + j)%nat); [lia|done..].
Qed.

Section FurtherOrdered.

Variable sort_Sort : MigrationList Schema → MigrationList Schema.
Hypothesis sort_Sort_perm : ∀ ml, sort_Sort ml ≡ₚ ml.
Hypothesis sort_Sort_sorted :
  ∀ ml i j, (i < j < length ml)%nat → Less (sort_Sort ml) j i = Some false.

(** What [sort.Sort] promises, read on the list [sortMigrations]
    returns. *)
Lemma sortMigrations_dateOrdered migs :
  sortMigrations sort_Sort migs ≡ₚ migs ∧ dateOrdered (sortMigrations sort_Sort migs).
Proof.
  split; [by apply sortMigrations_perm|].
  unfold sortMigrations. cbn zeta. intros i j a b Hij Ha Hb. apply Before_false.
  assert (Hj : (j < length migs)%nat).
  { rewrite <- (Permutation_length (sort_Sort_perm migs)). by eapply lookup_lt_Some. }
  pose proof (sort_Sort_sorted migs i j (conj Hij Hj)) as HL.
  rewrite (Less_lookup _ _ _ b a) in HL by done. by injection HL.
Qed.

(** X1. The up-runner is all or nothing, and what it applies is the
    first [n] units in date order.  The list it walks holds the given
    units with no unit dated before one that precedes it, so the [n]
    units it takes are dated no later than those it leaves.  When it
    returns nil it has committed those [n] units and nothing else: their
    increments in that order, their tracking keys appended in that order,
    one [Up] and one INSERT per unit between [Begin] and [Commit].  When
    it returns an error or panics the committed store is what it was. *)
Theorem migrateUpN_commits_prefix migs n w :
  let sorted := sortMigrations sort_Sort migs in
  let ms := take (Z.to_nat n) sorted in
  (sorted ≡ₚ migs
   ∧ dateOrdered sorted
   ∧ ∀ a b, a ∈ ms → b ∈ drop (Z.to_nat n) sorted → time_le (Date a) (Date b))
  ∧ match migrateUpN env sort_Sort migs n w with
    | Done None w' =>
        length ms = Z.to_nat n
        ∧ committed w' =
            {| schema := ups ms (schema (committed w));
               tracking := (λ rows, rows ++ (dbName <$> ms)) <$> tracking (committed w) |}
        ∧ tx w' = None
        ∧ history w' = (CallCommit, None) :: reverse (upCalls ms)
                         ++ (CallBegin, None) :: history w
    | Done (Some e) w' => committed w' = committed w
    | Panic _ w' => committed w' = committed w ∧ (length sorted < Z.to_nat n)%nat
    end.
Proof.
  intros sorted ms. destruct (sortMigrations_dateOrdered migs) as [Hp Ho].
  split; [|apply migrateUpN_outcome].
  split; [done|]. split; [done|]. intros a b. by apply dateOrdered_take_drop.
Qed.

(** X2. The down-runner, asked for [0 <= n] steps, is all or nothing,
    and what it reverts is the last [n] units in date order, latest
    first.  The list it walks holds the given units with no unit dated
    before one that precedes it; the units it reverts are the last [n] of
    that list read backwards, dated no earlier than those it leaves.
    When it returns nil it has committed their down increments in that
    order and removed every row equal to one of their tracking keys;
    there were at least [n] units.  When it returns an error or panics
    the committed store is what it was, and it panics only when [n]
    exceeds the length. *)
Theorem migrateDownN_commits_suffix migs n w :
  0 ≤ n < 2 ^ 63 → Len migs < 2 ^ 63 →
  let sorted := sortMigrations sort_Sort migs in
  let ms := reverse (drop (length sorted - Z.to_nat n) sorted) in
  (sorted ≡ₚ migs
   ∧ dateOrdered sorted
   ∧ dateOrdered (reverse ms)
   ∧ ∀ a b, a ∈ ms → b ∈ take (length sorted - Z.to_nat n) sorted →
       time_le (Date b) (Date a))
  ∧ match migrateDownN env sort_Sort migs n w with
    | Done None w' =>
        n ≤ Len migs
        ∧ committed w' =
            {| schema := downs ms (schema (committed w));
               tracking := (λ rows, deleteKeys rows ms) <$> tracking (committed w) |}
        ∧ tx w' = None
        ∧ history w' = (CallCommit, None) :: reverse (downCalls ms)
                         ++ (CallBegin, None) :: history w
    | Done (Some e) w' => committed w' = committed w
    | Panic _ w' => committed w' = committed w ∧ Len migs < n
    end.
Proof.
  intros Hn Hbig sorted ms. destruct (sortMigrations_dateOrdered migs) as [Hp Ho].
  split; [|by apply migrateDownN_outcome].
  split; [done|]. split; [done|]. unfold ms. rewrite reverse_involutive.
  split; [by apply dateOrdered_drop|].
  intros a b Ha Hb. rewrite elem_of_reverse in Ha.
  by apply (dateOrdered_take_drop sorted (length sorted - Z.to_nat n) b a).
Qed.

(** X7. When [Migrate] returns nil after reading the tracking table
    cleanly, it has applied exactly the candidates that were unapplied,
    in date order: the list it ran holds the unapplied candidates with no
    unit dated before one that precedes it, the committed schema is
    theirs applied in that order, the tracking table (created if it was
    missing) holds the old rows followed by their keys in that order, and
    the calls made are the table creation, the read, [Begin], one [Up]
    and one INSERT per unit, and [Commit]. *)
Theorem Migrate_applies_unapplied migs w w' :
  readsClean env (history w) →
  Migrate env sort_Sort migs w = Done None w' →
  let su := sortMigrations sort_Sort (unapplied migs (committed w)) in
  (su ≡ₚ unapplied migs (committed w) ∧ dateOrdered su)
  ∧ committed w' =
      {| schema := ups su (schema (committed w));
         tracking := Some (default [] (tracking (committed w)) ++ (dbName <$> su)) |}
  ∧ tx w' = None
  ∧ ∃ reads,
      Forall readEvent reads
      ∧ history w' = (CallCommit, None) :: reverse (upCalls su)
                       ++ (CallBegin, None) :: reads
                       ++ (CallCreateTable, None) :: history w.
Proof.
  intros Hclean HM su. split; [apply sortMigrations_dateOrdered|].
  by apply Migrate_success_store.
Qed.

(** X8. The notifications of a run of [Migrate] that returns nil after a
    clean read: first "Running migrations..." with the field n set to the
    number of unapplied candidates, then one entry per unapplied
    candidate in date order, the k-th of them, k counted from 1, with its
    tracking key, k and that number. *)
Theorem Migrate_progress migs w w' :
  readsClean env (history w) →
  Migrate env sort_Sort migs w = Done None w' →
  let toRun := unapplied migs (committed w) in
  let su := sortMigrations sort_Sort toRun in
  (su ≡ₚ toRun ∧ dateOrdered su)
  ∧ sink w' =
      reverse (imap (λ j m, {| fields := []; format := "Up'd %s (%d/%d)";
                               args := [AStr (dbName m); AInt (Z.of_nat j + 1);
                                        AInt (Len toRun)] |})
                 su)
      ++ {| fields := [("n", Len toRun)];
            format := "Running migrations..."; args := [] |} :: sink w.
Proof.
  intros Hclean HM toRun su. split; [apply sortMigrations_dateOrdered|].
  by apply Migrate_success_sink.
Qed.

End FurtherOrdered.

End Further.

(** ** Tracking keys identify second and name *)

Lemma itoa_inj (z1 z2 : Z) : itoa z1 = itoa z2 → z1 = z2.
Proof.
  unfold itoa. intros H. apply DecimalZ.to_int_inj.
  assert (Hok : ∀ z, NilZero.int_of_string (NilZero.string_of_int (Z.to_int z))
                     = Some (Z.to_int z)).
  { intros z. apply NilZero.isi; destruct z as [|p|p]; cbn; try done;
      intros [= Hp]; by apply Unsigned.to_uint_nonnil in Hp. }
  pose proof (Hok z1) as H1. rewrite H, Hok in H1. by injection H1.
Qed.

Lemma uint_no_underscore (d : Decimal.uint) :
  occurs "_" (NilEmpty.string_of_uint d) = false.
Proof. induction d; cbn; done. Qed.

Lemma itoa_no_underscore (z : Z) : occurs "_" (itoa z) = false.
Proof.
  unfold itoa. destruct (Z.to_int z) as [d|d]; cbn.
  - destruct d; try done; apply (uint_no_underscore (_ d)).
  - destruct d; try done; apply (uint_no_underscore (_ d)).
Qed.

Lemma split_at_first (c : ascii) (s1 s2 t1 t2 : string) :
  occurs c s1 = false → occurs c s2 = false →
  s1 +:+ String c t1 = s2 +:+ String c t2 → s1 = s2 ∧ t1 = t2.
Proof.
  revert s2. induction s1 as [|a s1 IH]; intros [|b s2]; cbn [occurs];
    rewrite ?append_cons.
  - intros _ _ H. change (String c t1 = String c t2) in H. by injection H.
  - intros _ Hb H. change (String c t1 = String b (s2 +:+ String c t2)) in H.
    injection H as -> _. by rewrite Ascii.eqb_refl in Hb.
  - intros Ha _ H. change (String a (s1 +:+ String c t1) = String c t2) in H.
    injection H as -> _. by rewrite Ascii.eqb_refl in Ha.
  - intros Ha Hb [= -> H].
    destruct (Ascii.eqb c b); [done|]. destruct (IH s2 Ha Hb H) as [-> ->]. done.
Qed.

Section Keys.

Context {Schema : Type}.
Implicit Types (m : Migration Schema) (ml : MigrationList Schema).

(** X14. The tracking key depends on the date only through its Unix
    second and on the unit only through its name: units with the same
    second and name share a key, whatever their nanoseconds and
    increments.  Conversely, when neither composed key is longer than 500
    bytes, equal keys mean equal seconds and equal names. *)
Theorem dbName_identifies (m1 m2 : Migration Schema) :
  (Unix (Date m1) = Unix (Date m2) → Name m1 = Name m2 → dbName m1 = dbName m2)
  ∧ ((String.length (composed m1) ≤ 500)%nat →
     (String.length (composed m2) ≤ 500)%nat →
     dbName m1 = dbName m2 →
     Unix (Date m1) = Unix (Date m2) ∧ Name m1 = Name m2).
Proof.
  split.
  - intros Hd Hn. by rewrite !dbName_unfold, Hd, Hn.
  - intros H1 H2. rewrite !dbName_unfold. fold (composed m1) (composed m2).
    rewrite !substring_0_all by done. unfold composed.
    change ("_" +:+ Name m1) with (String "_" (Name m1)).
    change ("_" +:+ Name m2) with (String "_" (Name m2)).
    intros [Hi Hn]%split_at_first; [|apply itoa_no_underscore..].
    split; [by apply itoa_inj|done].
Qed.

(** X15. [Less] on a [MigrationList] is the strict weak order that
    [sort.Sort] asks of its argument: within range it is irreflexive and
    transitive, being unordered either way is transitive too, and it
    holds of two positions exactly when the first unit's date is strictly
    before the second's.  Out of range it has no value (the index
    expression panics). *)
Theorem Less_strict_weak_order ml :
  (∀ i j, Less ml i j = None ↔ (length ml ≤ i ∨ length ml ≤ j)%nat)
  ∧ (∀ i a, ml !! i = Some a → Less ml i i = Some false)
  ∧ (∀ i j k, Less ml i j = Some true → Less ml j k = Some true →
       Less ml i k = Some true)
  ∧ (∀ i j k, Less ml i j = Some false → Less ml j i = Some false →
       Less ml j k = Some false → Less ml k j = Some false →
       Less ml i k = Some false ∧ Less ml k i = Some false)
  ∧ (∀ i j a b, ml !! i = Some a → ml !! j = Some b →
       (Less ml i j = Some true ↔ ¬ time_le (Date b) (Date a))).
Proof.
  assert (Hval : ∀ i j v, Less ml i j = Some v →
            ∃ a b, ml !! i = Some a ∧ ml !! j = Some b ∧ v = Before (Date a) (Date b)).
  { intros i j v. unfold Less.
    destruct (ml !! i) as [a|]; [|done]. destruct (ml !! j) as [b|]; [|done].
    cbn. intros [= <-]. by exists a, b. }
  split; [|split; [|split; [|split]]].
  - intros i j. unfold Less. rewrite <- !lookup_ge_None.
    destruct (ml !! i) as [a|], (ml !! j) as [b|]; cbn; intuition congruence.
  - intros i a Ha. rewrite (Less_lookup _ _ _ a a) by done. f_equal.
    apply Before_false. unfold time_le. lia.
  - intros i j k (a & b & Ha & Hb & Hab)%Hval (b' & c & Hb' & Hc & Hbc)%Hval.
    rewrite Hb in Hb'. injection Hb' as <-.
    rewrite (Less_lookup _ _ _ a c) by done. f_equal.
    symmetry in Hab, Hbc. apply Before_spec in Hab, Hbc. apply Before_spec. lia.
  - intros i j k (a & b & Ha & Hb & Hab)%Hval (b1 & a1 & Hb1 & Ha1 & Hba)%Hval
      (b2 & c & Hb2 & Hc & Hbc)%Hval (c3 & b3 & Hc3 & Hb3 & Hcb)%Hval.
    rewrite Hb in Hb1, Hb2, Hb3. injection Hb1 as <-. injection Hb2 as <-.
    injection Hb3 as <-. rewrite Ha in Ha1. injection Ha1 as <-.
    rewrite Hc in Hc3. injection Hc3 as <-.
    rewrite (Less_lookup _ _ _ a c), (Less_lookup _ _ _ c a) by done.
    symmetry in Hab, Hba, Hbc, Hcb. apply Before_false in Hab, Hba, Hbc, Hcb.
    split; f_equal; apply Before_false; unfold time_le in *; lia.
  - intros i j a b Ha Hb. rewrite (Less_lookup _ _ _ a b) by done.
    rewrite <- Before_false. destruct (Before (Date a) (Date b)); naive_solver.
Qed.

(** X16. [Swap] on a [MigrationList] exchanges two elements and nothing
    else: within range the result has the same length, the two positions
    hold each other's elements, every other position is unchanged, the
    result is a rearrangement of the list, and swapping again gives the
    list back.  Out of range it has no value. *)
Theorem Swap_exchanges ml i j :
  (Swap ml i j = None ↔ (length ml ≤ i ∨ length ml ≤ j)%nat)
  ∧ ∀ ml', Swap ml i j = Some ml' →
      length ml' = length ml
      ∧ ml' !! i = ml !! j ∧ ml' !! j = ml !! i
      ∧ (∀ k, k ≠ i → k ≠ j → ml' !! k = ml !! k)
      ∧ ml' ≡ₚ ml
      ∧ Swap ml' i j = Some ml.
Proof.
  split.
  - unfold Swap. rewrite <- !lookup_ge_None.
    destruct (ml !! i) as [a|], (ml !! j) as [b|]; cbn; intuition congruence.
  - intros ml'. unfold Swap.
    destruct (ml !! i) as [a|] eqn:Ha; [|done]. destruct (ml !! j) as [b|] eqn:Hb; [|done].
    cbn. intros [= <-].
    pose proof (lookup_lt_Some _ _ _ Ha) as Hi. pose proof (lookup_lt_Some _ _ _ Hb) as Hj.
    assert (Hi' : <[i:=b]> (<[j:=a]> ml) !! i = Some b).
    { apply list_lookup_insert_eq. by rewrite length_insert. }
    assert (Hj' : <[i:=b]> (<[j:=a]> ml) !! j = Some a).
    { destruct (decide (i = j)) as [->|Hne].
      - rewrite list_lookup_insert_eq by by rewrite length_insert. congruence.
      - rewrite list_lookup_insert_ne by done. by apply list_lookup_insert_eq. }
    split; [by rewrite !length_insert|]. split; [done|]. split; [done|].
    split; [|split].
    + intros k Hki Hkj. by rewrite !list_lookup_insert_ne.
    + by apply Permutation_insert_swap.
    + rewrite Hi', Hj'. cbn. f_equal.
      apply list_eq. intros k.
      destruct (decide (k = i)) as [->|Hki].
      { rewrite list_lookup_insert_eq by by rewrite !length_insert. done. }
      rewrite list_lookup_insert_ne by done.
      destruct (decide (k = j)) as [->|Hkj].
      { rewrite list_lookup_insert_eq by by rewrite !length_insert. done. }
      by rewrite !list_lookup_insert_ne.
Qed.

End Keys.

Section Orchestration.

Context {Schema : Type}.
Variable env : Oracle.
Variable sort_Sort : MigrationList Schema → MigrationList Schema.
Hypothesis sort_Sort_perm : ∀ ml, sort_Sort ml ≡ₚ ml.

(** X17. [Migrate] always returns: the count it passes to [migrateUpN] is
    the length of the list it passes, so no index is out of range.  When
    it returns an error, whichever of its three steps the error comes
    from, the committed schema and the committed rows are those of the
    start; the one thing that may have changed is that the tracking table
    now exists. *)
Theorem Migrate_all_or_nothing (migs : MigrationList Schema) (w : World Schema) :
  ∃ e w',
    Migrate env sort_Sort migs w = Done e w'
    ∧ (is_Some e →
       schema (committed w') = schema (committed w)
       ∧ default [] (tracking (committed w')) = default [] (tracking (committed w))).
Proof.
  assert (Hens : ∀ st : Store Schema,
            schema (ensured st) = schema st
            ∧ default [] (tracking (ensured st)) = default [] (tracking st)).
  { intros [s [rows|]]; done. }
  destruct (Migrate_cases env sort_Sort migs w) as (e0 & w0 & Hc & Hfail & Hok).
  destruct (checkMigrationTable_spec env w) as (e0' & w0' & Hc' & _ & _ & _ & Hsame & Hnew).
  rewrite Hc in Hc'. injection Hc' as <- <-.
  destruct e0 as [e0|].
  { exists (Some e0), w0. split; [by apply Hfail|]. intros _. by rewrite Hsame. }
  destruct (Hok eq_refl) as (toRun & err & wr & Hn & Hnfail & Hnok).
  destruct (needsToRun_frame env migs w0) as (toRun' & err' & wr' & new & Hn' & Hcr & _).
  rewrite Hn in Hn'. injection Hn' as <- <- <-.
  destruct err as [err|].
  { exists (Some err), wr. split; [by apply Hnfail|]. intros _.
    rewrite Hcr, Hnew by done. apply Hens. }
  rewrite (Hnok eq_refl).
  pose proof (migrateUpN_all env sort_Sort sort_Sort_perm toRun
                (with_sink (runStart toRun :: sink wr) wr)) as Hup.
  cbv zeta in Hup.
  destruct (migrateUpN env sort_Sort toRun (Len toRun) _) as [[e|] w'|msg w'];
    [| |done].
  - exists (Some e), w'. split; [done|]. intros _.
    rewrite Hup. cbn. rewrite Hcr, Hnew by done. apply Hens.
  - exists None, w'. split; [done|]. by intros [? [=]].
Qed.

End Orchestration.

(** ** The further theorems at concrete inputs *)

Lemma migrateUpN_commits_prefix_witness :
  ∃ w', migrateUpN noFaults sortShort [migPosts; migUsers] 1 (withRows []) = Done None w'
    ∧ committed w' = {| schema := ["users"];
                        tracking := Some ["1599691380_create_users_table"] |}.
Proof.
  pose proof (migrateUpN_commits_prefix noFaults sortShort sortShort_perm
                sortShort_sorted [migPosts; migUsers] 1 (withRows [])) as H.
  cbv zeta in H. destruct H as [_ H].
  destruct (migrateUpN noFaults sortShort [migPosts; migUsers] 1 (withRows []))
    as [[e|] w'|msg w'] eqn:E; [vm_compute in E; discriminate| |vm_compute in E; discriminate].
  exists w'. split; [reflexivity|]. destruct H as (_ & -> & _). vm_compute; reflexivity.
Defined.

Lemma migrateDownN_commits_suffix_witness :
  ∃ w', migrateDownN noFaults sortShort [migPosts; migUsers] 1 appliedDB = Done None w'
    ∧ committed w' = {| schema := ["users"];
                        tracking := Some ["1599691380_create_users_table"] |}.
Proof.
  pose proof (migrateDownN_commits_suffix noFaults sortShort sortShort_perm
                sortShort_sorted [migPosts; migUsers] 1 appliedDB ltac:(lia)
                ltac:(unfold Len; cbn [length]; lia)) as H.
  cbv zeta in H. destruct H as [_ H].
  destruct (migrateDownN noFaults sortShort [migPosts; migUsers] 1 appliedDB)
    as [[e|] w'|msg w'] eqn:E; [vm_compute in E; discriminate| |vm_compute in E; discriminate].
  exists w'. split; [reflexivity|]. destruct H as (_ & -> & _). vm_compute; reflexivity.
Defined.

Lemma up_then_down_restores_witness :
  committed (after (migrateDownN noFaults sortShort [migPosts; migUsers] 2
                      (after (migrateUpN noFaults sortShort [migPosts; migUsers] 2
                                (withRows [])))))
  = committed (withRows []).
Proof.
  apply (up_then_down_restores noFaults sortShort sortShort_perm [migPosts; migUsers]
           (withRows [])
           (after (migrateUpN noFaults sortShort [migPosts; migUsers] 2 (withRows [])))).
  - unfold Len. cbn [length]. lia.
  - intros c _. apply not_elem_of_nil.
  - intros c s [-> | [-> | []%elem_of_nil]%elem_of_cons]%elem_of_cons; reflexivity.
  - vm_compute; reflexivity.
  - vm_compute; reflexivity.
Defined.

Lemma increment_failure_wrapped_witness :
  (∃ w', migrateUpN noFaults sortShort [migA; migBad] 2 (withRows [])
         = Done (Some "Failed to up 1599691380_b: something like a foreign or similar") w'
       ∧ committed w' = committed (withRows []))
  ∧ (∃ w', migrateDownN noFaults sortShort [migStuck; migUsers] 1 appliedDB
           = Done (Some "Failed to down 1599691400_stuck: table is in use") w'
         ∧ committed w' = committed appliedDB).
Proof.
  split.
  - pose (w1 := after (db_Begin noFaults (withRows []))).
    pose (wk := after (upLoop noFaults (sortMigrations sortShort [migA; migBad]) 2 1 0 w1)).
    destruct (proj1 (increment_failure_wrapped noFaults sortShort [migA; migBad] 2 1
                       (withRows []) w1 ltac:(lia) ltac:(vm_compute; reflexivity))
                wk migBad "something like a foreign or similar"
                (after (tx_increment (CallUp (dbName migBad)) (Up migBad) wk))
                ltac:(vm_compute; reflexivity) ltac:(vm_compute; reflexivity)
                ltac:(vm_compute; reflexivity))
      as (w' & rb & Hr & Hc & _).
    exists w'. split; [|exact Hc]. rewrite Hr. vm_compute; reflexivity.
  - pose (w1 := after (db_Begin noFaults appliedDB)).
    destruct (proj2 (increment_failure_wrapped noFaults sortShort [migStuck; migUsers] 1 0
                       appliedDB w1 ltac:(lia) ltac:(vm_compute; reflexivity))
                w1 migStuck "table is in use"
                (after (tx_increment (CallDown (dbName migStuck)) (Down migStuck) w1))
                ltac:(lia) ltac:(vm_compute; reflexivity)
                ltac:(apply Nat.ltb_lt; vm_compute; reflexivity)
                ltac:(vm_compute; reflexivity) ltac:(vm_compute; reflexivity)
                ltac:(vm_compute; reflexivity))
      as (w' & rb & Hr & Hc & _).
    exists w'. split; [|exact Hc]. rewrite Hr. vm_compute; reflexivity.
Defined.

Lemma transaction_edge_failures_witness :
  migrateUpN beginFails sortShort [migA] 1 (withRows [])
  = Done (Some "driver: bad connection")
         (note CallBegin (Some "driver: bad connection") (withRows []))
  ∧ ∃ w', migrateUpN commitFails sortShort [migA] 1 (withRows [])
          = Done (Some "driver: bad connection") w'
        ∧ committed w' = committed (withRows []).
Proof.
  split.
  - apply (proj1 (transaction_edge_failures beginFails sortShort [migA] 1 (withRows []))).
    reflexivity.
  - pose (w1 := after (db_Begin commitFails (withRows []))).
    destruct (proj2 (transaction_edge_failures commitFails sortShort [migA] 1 (withRows []))
                w1 (after (upLoop commitFails (sortMigrations sortShort [migA]) 1 1 0 w1))
                "driver: bad connection"
                ltac:(vm_compute; reflexivity) ltac:(vm_compute; reflexivity)
                ltac:(reflexivity))
      as (w' & Hr & Hc & _).
    by exists w'.
Defined.

Lemma Migrate_aborts_early_witness :
  Migrate createFails sortShort [migA] emptyDB
  = Done (Some "permission denied")
         (note CallCreateTable (Some "permission denied") emptyDB)
  ∧ ∃ w', Migrate queryFails sortShort [migA] emptyDB
          = Done (Some "driver: bad connection") w'
        ∧ committed w' = ensured (committed emptyDB).
Proof.
  split.
  - apply (proj1 (Migrate_aborts_early createFails sortShort [migA] emptyDB)).
    reflexivity.
  - destruct (proj2 (Migrate_aborts_early queryFails sortShort [migA] emptyDB)
                "driver: bad connection" ltac:(reflexivity) ltac:(reflexivity))
      as (w' & Hr & _ & Hc & _).
    by exists w'.
Defined.

Lemma Migrate_applies_unapplied_witness :
  committed (after (Migrate noFaults sortShort [migA; migB] (withRows ["1599691380_a"])))
  = {| schema := ["DROP TABLE users"];
       tracking := Some ["1599691380_a"; "1599691380_b"] |}.
Proof.
  destruct (Migrate_applies_unapplied noFaults sortShort sortShort_perm sortShort_sorted
              [migA; migB] (withRows ["1599691380_a"])
              (after (Migrate noFaults sortShort [migA; migB] (withRows ["1599691380_a"])))
              ltac:(intros h _; split; reflexivity) ltac:(vm_compute; reflexivity))
    as (_ & Hc & _).
  rewrite Hc. vm_compute; reflexivity.
Defined.

Lemma Migrate_progress_witness :
  message <$> sink (after (Migrate noFaults sortShort [migB; migC] emptyDB))
  = ["Up'd 1599691380_b (2/2)"; "Up'd 1599691375_c (1/2)"; "Running migrations..."].
Proof.
  destruct (Migrate_progress noFaults sortShort sortShort_perm sortShort_sorted
              [migB; migC] emptyDB
              (after (Migrate noFaults sortShort [migB; migC] emptyDB))
              ltac:(intros h _; split; reflexivity) ltac:(vm_compute; reflexivity))
    as [_ Hs].
  rewrite Hs. vm_compute; reflexivity.
Defined.

Lemma nonpositive_n_runs_nothing_witness :
  (∃ e w', migrateUpN noFaults sortShort [migA; migB] (-1) (withRows []) = Done e w'
           ∧ committed w' = committed (withRows []))
  ∧ (∃ e w', migrateDownN noFaults sortShort [migA; migB] (-1) (withRows []) = Done e w'
             ∧ committed w' = committed (withRows [])).
Proof.
  destruct (nonpositive_n_runs_nothing noFaults sortShort sortShort_perm [migA; migB] (-1)
              (withRows []) ltac:(lia)) as [Hup Hdown].
  split.
  - destruct Hup as (e & w' & _ & Hr & Hc & _). by exists e, w'.
  - destruct Hdown as (e & w' & _ & Hr & Hc & _);
      [unfold Len; cbn [length]; lia..|]. by exists e, w'.
Defined.

Lemma migrateDownN_bound_wraps_witness :
  ∃ msg w', migrateDownN noFaults sortShort [migA] (- 2 ^ 63) (withRows []) = Panic msg w'.
Proof.
  pose (w1 := after (db_Begin noFaults (withRows []))).
  destruct (migrateDownN_bound_wraps noFaults sortShort sortShort_perm [migA] (- 2 ^ 63)
              (withRows []) w1
              (after (downLoop noFaults (sortMigrations sortShort [migA]) (- 2 ^ 63) (-1)
                        (length (sortMigrations sortShort [migA])) w1))
              ltac:(unfold Len; cbn [length]; lia) ltac:(unfold Len; cbn [length]; lia)
              ltac:(vm_compute; reflexivity) ltac:(vm_compute; reflexivity))
    as [msg Hr].
  by eexists msg, _.
Defined.

Lemma nil_up_is_recorded_witness :
  committed (after (migrateUpN noFaults sortShort [migNoop] 1 (withRows [])))
  = {| schema := []; tracking := Some ["1599691380_noop"] |}.
Proof.
  destruct (nil_up_is_recorded noFaults sortShort sortShort_perm [migNoop] 1 (withRows [])
              (after (migrateUpN noFaults sortShort [migNoop] 1 (withRows []))))
    as (_ & Hs & Ht).
  - intros c ->%list_elem_of_singleton. by eexists _, _, _.
  - vm_compute; reflexivity.
  - destruct (committed _) as [s t]. cbn in Hs, Ht. rewrite Hs, Ht. vm_compute; reflexivity.
Defined.

Lemma dbName_identifies_witness :
  dbName migB = dbName migB'
  ∧ (dbName migB = dbName migB' →
     Unix (Date migB) = Unix (Date migB') ∧ Name migB = Name migB').
Proof.
  destruct (dbName_identifies migB migB') as [Hsame Hback]. split.
  - apply Hsame; reflexivity.
  - apply Hback; apply Nat.leb_le; vm_compute; reflexivity.
Defined.

Lemma Less_strict_weak_order_witness :
  Less [migC; migA; migPosts] 0 2 = Some true.
Proof.
  destruct (Less_strict_weak_order [migC; migA; migPosts]) as (_ & _ & Htrans & _).
  apply (Htrans 0%nat 1%nat 2%nat); vm_compute; reflexivity.
Defined.

Lemma Swap_exchanges_witness :
  [migC; migB; migA] ≡ₚ [migA; migB; migC].
Proof.
  destruct (Swap_exchanges [migA; migB; migC] 0 2) as [_ Hsw].
  destruct (Hsw [migC; migB; migA]) as (_ & _ & _ & _ & Hp & _); [reflexivity|exact Hp].
Defined.

Lemma Migrate_all_or_nothing_witness :
  ∃ e w',
    Migrate noFaults sortShort [migA; migBad] emptyDB = Done e w'
    ∧ (is_Some e →
       schema (committed w') = schema (committed emptyDB)
       ∧ default [] (tracking (committed w')) = default [] (tracking (committed emptyDB))).
Proof.
  apply (Migrate_all_or_nothing noFaults sortShort sortShort_perm [migA; migBad] emptyDB).
Defined.
